(** * A command line calculator: politzerSample.c

    Shallow embedding of [src/politzerSample.c] and the properties of its
    expression evaluator.

    Modelling conventions.
    - A C string is the [string] of its characters before the terminating
      NUL.
    - [double] is IEEE 754 binary64: the primitive type [float], with the
      primitive operations for [+ - * /], [fabs], [<] and [==].
    - [unsigned int] is 32 bits wide and wraps around.  [int] is 32 bits
      wide as well, and C leaves its overflow undefined: the [int]
      counters and indices are integers in [Z], and what is stated about
      the evaluation of a whole line is stated for the lines of at most
      [INT_MAX] tokens, on which no counter of the source passes
      [INT_MAX].
    - An array is a list.  Reading or writing outside of it is undefined in
      C and is the outcome [OutOfBounds] here.
    - A [while] loop without a syntactic bound runs on fuel; running out of
      fuel is the outcome [OutOfFuel], and the theorems show that it never
      happens.
    - [realloc] and [calloc] succeed ([calloc] of zero elements returns a
      non-null pointer, as in glibc), so the [exit] paths are not taken.
    - What the function prints is the string it appends to standard
      output; the caller's [double* result] is passed as the value stored
      there before the call, and returned as the value stored after it. *)

From Stdlib Require Import ZArith String Ascii List Lia Bool.
From Stdlib Require Import PrimFloat SpecFloat FloatOps.
From Stdlib Require Import Decimal DecimalString DecimalN.
From stdpp Require Import base tactics option list.

Local Open Scope string_scope.
Local Open Scope list_scope.
Local Open Scope Z_scope.

(** ** Outcomes of the modelled code *)

Inductive outcome (A : Type) : Type :=
| Ret (a : A)
| OutOfBounds
| OutOfFuel.

Arguments Ret {A} a.
Arguments OutOfBounds {A}.
Arguments OutOfFuel {A}.

Definition bind {A B : Type} (m : outcome A) (k : A -> outcome B) : outcome B :=
  match m with
  | Ret a => k a
  | OutOfBounds => OutOfBounds
  | OutOfFuel => OutOfFuel
  end.

Notation "'do' x <- m ; k" := (bind m (fun x => k))
  (at level 10, x name, m at level 100, k at level 200).

(** [a[i]] and [a[i] = v] for an [int] index. *)
Definition load {A : Type} (a : list A) (i : Z) : outcome A :=
  if i <? 0 then OutOfBounds
  else match a !! Z.to_nat i with
       | Some x => Ret x
       | None => OutOfBounds
       end.

Definition store {A : Type} (a : list A) (i : Z) (v : A) : outcome (list A) :=
  if (0 <=? i) && (i <? Z.of_nat (length a)) then Ret (<[Z.to_nat i := v]> a)
  else OutOfBounds.

(** ** The C library functions the program calls *)

Module Libc.

Definition NUL : ascii := Ascii.zero.
Definition LF : string := String "010"%char EmptyString.

Definition DBL_MAX : float := 0x1.fffffffffffffp+1023%float.
Definition DBL_EPSILON : float := 0x1p-52%float.

Definition fabs (x : float) : float := PrimFloat.abs x.

Definition isdigit (c : ascii) : bool :=
  (48 <=? nat_of_ascii c)%nat && (nat_of_ascii c <=? 57)%nat.

Definition strlen (s : string) : Z := Z.of_nat (String.length s).

Fixpoint strchr (s : string) (c : ascii) : bool :=
  match s with
  | EmptyString => false
  | String d s' => Ascii.eqb d c || strchr s' c
  end.

(** [strpbrk(s, accept) != NULL] *)
Fixpoint strpbrk (s accept : string) : bool :=
  match s with
  | EmptyString => false
  | String c s' => strchr accept c || strpbrk s' accept
  end.

(** [strtok]: the saved position is the rest of the line.  Leading
    delimiters are skipped; at the end of the line there is no token;
    otherwise the token runs to the next delimiter, which is overwritten
    by NUL, and the scan resumes behind it. *)
Fixpoint token_end (s delim : string) : string * string :=
  match s with
  | EmptyString => (EmptyString, EmptyString)
  | String c s' =>
      if strchr delim c then (EmptyString, s')
      else let '(tok, save) := token_end s' delim in (String c tok, save)
  end.

Fixpoint strtok (s delim : string) : option (string * string) :=
  match s with
  | EmptyString => None
  | String c s' =>
      if strchr delim c then strtok s' delim
      else Some (token_end s delim)
  end.

(** [atof] on the strings [validOperand] lets through: decimal digits
    around at most one ['.'].  The value is the decimal number, rounded to
    the nearest double (ties to even); the conversion stops at the first
    character that does not continue the number, and a string without any
    digit converts to [0.0]. *)
Definition digit_value (c : ascii) : Z := Z.of_nat (nat_of_ascii c) - 48.

Fixpoint scan_digits (s : string) (acc : Z) (n : nat) : Z * nat * string :=
  match s with
  | String c s' =>
      if isdigit c then scan_digits s' (10 * acc + digit_value c) (S n)
      else (acc, n, s)
  | EmptyString => (acc, n, s)
  end.

Definition round_quotient (m d : Z) : float :=
  match m, d with
  | Zpos m, Zpos d =>
      SF2Prim (SFdiv prec emax (S754_finite false m 0) (S754_finite false d 0))
  | _, _ => 0%float
  end.

Definition atof (s : string) : float :=
  let '(int_part, _, rest) := scan_digits s 0 0 in
  match rest with
  | String "." frac =>
      let '(mantissa, frac_digits, _) := scan_digits frac int_part 0 in
      round_quotient mantissa (10 ^ Z.of_nat frac_digits)
  | _ => round_quotient int_part 1
  end.

End Libc.
Import Libc.

(** ** The program *)

Definition INT_MAX : Z := 2 ^ 31 - 1.

(** *** [validOperand] *)

Definition UINT_MODULUS : Z := 2 ^ 32.

Fixpoint validOperand_loop (str : string) (num_dec : Z) : bool :=
  match str with
  | EmptyString => num_dec <=? 1
  | String c str' =>
      if negb (isdigit c) && negb (Ascii.eqb c ".") then false
      else if Ascii.eqb c "." then
        validOperand_loop str' ((num_dec + 1) mod UINT_MODULUS)
      else validOperand_loop str' num_dec
  end.

Definition validOperand (str : string) : bool := validOperand_loop str 0.

(** *** [validOperator] *)

Definition validOperator (str : string) : bool :=
  (strlen str =? 1) && strpbrk str "+-*/".

(** *** [indexOfOp] *)

Fixpoint indexOfOp_from (n : nat) (operators : list ascii) (op : ascii) (i : Z)
  : outcome Z :=
  match n with
  | O => Ret (-1)
  | S n' =>
      do c <- load operators i;
      if Ascii.eqb c op then Ret i
      else indexOfOp_from n' operators op (i + 1)
  end.

Definition indexOfOp (operators : list ascii) (op : ascii) (num_operators : Z)
  : outcome Z :=
  indexOfOp_from (Z.to_nat num_operators) operators op 0.

(** *** [applyOp] *)

Definition applyOp (a b : float) (op : ascii) : float :=
  if Ascii.eqb op "+" then (a + b)%float
  else if Ascii.eqb op "-" then (a - b)%float
  else if Ascii.eqb op "*" then (a * b)%float
  else if Ascii.eqb op "/" then
    if (fabs b <? DBL_EPSILON)%float then DBL_MAX else (a / b)%float
  else 0%float.

(** *** [evalExpression] *)

(** The local variables that outlive the parsing loop, the text printed so
    far, and a ghost log [applied] of the slots [applyOp] was called at
    (latest first). *)
Record locals : Type := Locals {
  operands : list float;
  operators : list ascii;
  evaluated : list bool;
  error_occurred : bool;
  stdout : string;
  applied : list Z
}.

Definition num_operands (st : locals) : Z := Z.of_nat (length (operands st)).
Definition num_operators (st : locals) : Z := Z.of_nat (length (operators st)).

Definition order_of_ops : list ascii := ["*"; "/"; "+"; "-"]%char.

(** [operators[num_operators - 1] = (char)token[0]] reads the first
    character of the token, the terminator when the token is empty. *)
Definition first_char (token : string) : ascii :=
  match token with
  | String c _ => c
  | EmptyString => NUL
  end.

(** The parsing loop, lines 54 to 95.  [token] is the last result of
    [strtok] and [save] the position it left behind. *)
Fixpoint parse_loop (fuel : nat) (token : option string) (save : string)
    (parse_operand : bool) (st : locals) : outcome locals :=
  match token with
  | None => Ret st
  | Some token =>
      match fuel with
      | O => OutOfFuel
      | S fuel' =>
          if parse_operand then
            if negb (validOperand token) then
              Ret (Locals (operands st) (operators st) (evaluated st) true
                     (stdout st ++ "Invalid operand: " ++ token ++ LF)
                     (applied st))
            else
              let st' := Locals (operands st ++ [atof token]) (operators st)
                           (evaluated st) (error_occurred st) (stdout st)
                           (applied st) in
              match strtok save " " with
              | None => parse_loop fuel' None EmptyString (negb parse_operand) st'
              | Some (token', save') =>
                  parse_loop fuel' (Some token') save' (negb parse_operand) st'
              end
          else
            if negb (validOperator token) then
              Ret (Locals (operands st) (operators st) (evaluated st) true
                     (stdout st ++ "Invalid operator: " ++ token ++ LF)
                     (applied st))
            else
              let st' := Locals (operands st) (operators st ++ [first_char token])
                           (evaluated st) (error_occurred st) (stdout st)
                           (applied st) in
              match strtok save " " with
              | None => parse_loop fuel' None EmptyString (negb parse_operand) st'
              | Some (token', save') =>
                  parse_loop fuel' (Some token') save' (negb parse_operand) st'
              end
      end
  end.

(** Lines 98 to 102. *)
Definition check_last_operand (st : locals) : locals :=
  if negb (error_occurred st) && negb (num_operands st - num_operators st =? 1)
  then Locals (operands st) (operators st) (evaluated st) true
         (stdout st ++ "Missing last operand" ++ LF) (applied st)
  else st.

(** Lines 131 to 135: [for (j = 0; j < num_operands; j++)], with [n] the
    iterations left. *)
Fixpoint propagate (n : nat) (j : Z) (temp_val : float)
    (evaluated : list bool) (operands : list float) : outcome (list float) :=
  match n with
  | O => Ret operands
  | S n' =>
      do e <- load evaluated j;
      if e : bool then
        do operands' <- store operands j temp_val;
        propagate n' (j + 1) temp_val evaluated operands'
      else propagate n' (j + 1) temp_val evaluated operands
  end.

(** Lines 116 to 138: the [while] loop of one pass. *)
Fixpoint while_loop (fuel : nat) (op_curr : ascii) (st : locals)
  : outcome locals :=
  match fuel with
  | O => OutOfFuel
  | S fuel' =>
      do op_dex <- indexOfOp (operators st) op_curr (num_operators st);
      if op_dex =? -1 then Ret st
      else
        do a <- load (operands st) op_dex;
        do b <- load (operands st) (op_dex + 1);
        let temp_val := applyOp a b op_curr in
        if (temp_val =? DBL_MAX)%float then
          Ret (Locals (operands st) (operators st) (evaluated st) true
                 (stdout st ++ "Divide by zero error" ++ LF)
                 (op_dex :: applied st))
        else
          do ev1 <- store (evaluated st) op_dex true;
          do ev2 <- store ev1 (op_dex + 1) true;
          do operands' <- propagate (Z.to_nat (num_operands st)) 0 temp_val
                            ev2 (operands st);
          do operators' <- store (operators st) op_dex NUL;
          while_loop fuel' op_curr
            (Locals operands' operators' ev2 (error_occurred st) (stdout st)
               (op_dex :: applied st))
  end.

(** Lines 113 to 141: one pass per entry of [order_of_ops].  Each pass gets
    one unit of fuel per operator slot and one for the final test. *)
Fixpoint for_ops (ops : list ascii) (st : locals) : outcome locals :=
  match ops with
  | [] => Ret st
  | op_curr :: ops' =>
      do st' <- while_loop (S (length (operators st))) op_curr st;
      if error_occurred st' then Ret st' else for_ops ops' st'
  end.

(** Lines 111 to 144. *)
Definition evaluate (st : locals) (result : float) : outcome (locals * float) :=
  if negb (error_occurred st) then
    do st' <- for_ops order_of_ops st;
    if error_occurred st' then Ret (st', 0%float)
    else do r <- load (operands st') 0; Ret (st', r)
  else Ret (st, result).

(** The locals at entry, and line 104:
    [evaluated = calloc(num_operands, sizeof(bool))]. *)
Definition init : locals := Locals [] [] [] false EmptyString [].

Definition calloc_evaluated (st : locals) : locals :=
  Locals (operands st) (operators st)
    (replicate (Z.to_nat (num_operands st)) false)
    (error_occurred st) (stdout st) (applied st).

(** Lines 51 to 95: the first [strtok] and the parsing loop.  Every
    [strtok] consumes a character, so the length of the line bounds the
    iterations. *)
Definition parse (exp : string) : outcome locals :=
  match strtok exp " " with
  | None => parse_loop (S (String.length exp)) None EmptyString true init
  | Some (token, save) =>
      parse_loop (S (String.length exp)) (Some token) save true init
  end.

(** The whole function up to the [free]s: the final locals and [*result]. *)
Definition run (exp : string) (result : float) : outcome (locals * float) :=
  do parsed <- parse exp;
  evaluate (calloc_evaluated (check_last_operand parsed)) result.

(** [evalExpression(exp, &result)]: the value returned, [*result] after
    the call, and the text printed. *)
Definition evalExpression (exp : string) (result : float)
  : outcome (bool * float * string) :=
  do r <- run exp result;
  Ret (negb (error_occurred (fst r)), snd r, stdout (fst r)).

(** ** The token stream *)

(** The tokens the successive calls of [strtok] return: [strtok(exp, " ")]
    first, [strtok(NULL, " ")] from then on. *)
Fixpoint strtok_all (fuel : nat) (s : string) : list string :=
  match fuel with
  | O => []
  | S fuel' =>
      match strtok s " " with
      | None => []
      | Some (token, save) => token :: strtok_all fuel' save
      end
  end.

Definition tokens (exp : string) : list string :=
  strtok_all (S (String.length exp)) exp.

(** The parsing loop over a token stream that is already split. *)
Fixpoint parse_tokens (toks : list string) (parse_operand : bool) (st : locals)
  : locals :=
  match toks with
  | [] => st
  | token :: toks' =>
      if parse_operand then
        if negb (validOperand token) then
          Locals (operands st) (operators st) (evaluated st) true
            (stdout st ++ "Invalid operand: " ++ token ++ LF) (applied st)
        else
          parse_tokens toks' (negb parse_operand)
            (Locals (operands st ++ [atof token]) (operators st)
               (evaluated st) (error_occurred st) (stdout st) (applied st))
      else
        if negb (validOperator token) then
          Locals (operands st) (operators st) (evaluated st) true
            (stdout st ++ "Invalid operator: " ++ token ++ LF) (applied st)
        else
          parse_tokens toks' (negb parse_operand)
            (Locals (operands st) (operators st ++ [first_char token])
               (evaluated st) (error_occurred st) (stdout st) (applied st))
  end.

(** The check a token has to pass at its position, and a stream whose
    tokens all pass theirs. *)
Definition valid_at (parse_operand : bool) (token : string) : bool :=
  if parse_operand then validOperand token else validOperator token.

Fixpoint all_valid (parse_operand : bool) (toks : list string) : bool :=
  match toks with
  | [] => true
  | token :: toks' =>
      valid_at parse_operand token && all_valid (negb parse_operand) toks'
  end.

(** ** What the specification asks for *)

Module Spec.

(** The four operations, without any sentinel. *)
Definition arith (op : ascii) (a b : float) : float :=
  if Ascii.eqb op "+" then (a + b)%float
  else if Ascii.eqb op "-" then (a - b)%float
  else if Ascii.eqb op "*" then (a * b)%float
  else (a / b)%float.

(** Strict left-to-right fold of [x op1 y1 op2 y2 ...]. *)
Definition left_fold (x : float) (rest : list (ascii * float)) : float :=
  fold_left (fun acc oy => arith (fst oy) acc (snd oy)) rest x.

Definition multiplicative (op : ascii) : bool :=
  Ascii.eqb op "*" || Ascii.eqb op "/".

(** First tier: every run of [*] and [/] is folded left to right into one
    term; the [+] and [-] between the terms are kept. *)
Fixpoint first_tier (x : float) (rest : list (ascii * float))
  : float * list (ascii * float) :=
  match rest with
  | [] => (x, [])
  | (op, y) :: rest' =>
      if multiplicative op then first_tier (arith op x y) rest'
      else let '(term, more) := first_tier y rest' in (x, (op, term) :: more)
  end.

(** Two tiers: [*] and [/] before [+] and [-], each tier left to right. *)
Definition two_tier (x : float) (rest : list (ascii * float)) : float :=
  let '(term, more) := first_tier x rest in left_fold term more.

(** The operands and operators of a token stream [x op1 y1 op2 y2 ...]. *)
Fixpoint pairs (toks : list string) : option (list (ascii * float)) :=
  match toks with
  | [] => Some []
  | op :: y :: toks' =>
      match pairs toks' with
      | Some rest => Some ((first_char op, atof y) :: rest)
      | None => None
      end
  | _ => None
  end.

Definition expression (exp : string) : option (float * list (ascii * float)) :=
  match tokens exp with
  | x :: toks =>
      if all_valid true (x :: toks) then
        match pairs toks with
        | Some rest => Some (atof x, rest)
        | None => None
        end
      else None
  | [] => None
  end.

(** The value of a syntactically valid expression under the standard
    precedence, and under the plain left-to-right fold. *)
Definition standard_value (exp : string) : option float :=
  match expression exp with
  | Some (x, rest) => Some (two_tier x rest)
  | None => None
  end.

Definition left_to_right_value (exp : string) : option float :=
  match expression exp with
  | Some (x, rest) => Some (left_fold x rest)
  | None => None
  end.

End Spec.

(** * Definitions for the statements and the proofs *)

(** ** The operator slots *)

(** The first slot that holds [op], and the number of slots that do. *)
Fixpoint find_op (op : ascii) (l : list ascii) : option nat :=
  match l with
  | [] => None
  | c :: l' => if Ascii.eqb c op then Some O else S <$> find_op op l'
  end.

Fixpoint active (op : ascii) (l : list ascii) : nat :=
  match l with
  | [] => O
  | c :: l' => ((if Ascii.eqb c op then 1 else 0) + active op l')%nat
  end.

(** ** The states of the evaluation *)

(** The propagation loop overwrites exactly the merged slots. *)
Definition merge (temp_val : float) (evaluated : list bool)
    (operands : list float) : list float :=
  zip_with (fun (e : bool) x => if e then temp_val else x) evaluated operands.

(** The arrays have the sizes the structural check and [calloc] give them. *)
Definition well_sized (st : locals) : Prop :=
  length (operands st) = S (length (operators st))
  /\ length (evaluated st) = length (operands st).

(** The two ways an iteration that found a slot can end. *)
Definition abort (st : locals) (i : nat) : locals :=
  Locals (operands st) (operators st) (evaluated st) true
    (stdout st ++ "Divide by zero error" ++ LF) (Z.of_nat i :: applied st).

Definition fold_at (st : locals) (i : nat) (temp_val : float) : locals :=
  let ev := <[S i := true]> (<[i := true]> (evaluated st)) in
  Locals (merge temp_val ev (operands st)) (<[i := NUL]> (operators st)) ev
    (error_occurred st) (stdout st) (Z.of_nat i :: applied st).

(** What a pass may have done to the error flag and the output. *)
Definition quiet_or_aborted (st st' : locals) : Prop :=
  (error_occurred st' = error_occurred st /\ stdout st' = stdout st)
  \/ (error_occurred st' = true
      /\ stdout st' = (stdout st ++ "Divide by zero error" ++ LF)%string).

(** Every slot in the log has been cleared. *)
Definition cleared (st : locals) : Prop :=
  forall z, z ∈ applied st ->
    exists k, z = Z.of_nat k /\ operators st !! k = Some NUL.

(** ** What the parsing loop stores and prints *)

(** The values the parsing loop stores for a stream of valid tokens. *)
Fixpoint operands_of (parse_operand : bool) (toks : list string) : list float :=
  match toks with
  | [] => []
  | token :: toks' =>
      if parse_operand then atof token :: operands_of false toks'
      else operands_of true toks'
  end.

Fixpoint operators_of (parse_operand : bool) (toks : list string) : list ascii :=
  match toks with
  | [] => []
  | token :: toks' =>
      if parse_operand then operators_of false toks'
      else first_char token :: operators_of true toks'
  end.



(** ** Lines and their tokens *)

(** A line laid out from its tokens: [lead] spaces, the tokens with one
    space and [gaps] more between neighbours, [trail] spaces. *)
Fixpoint spaces (n : nat) : string :=
  match n with
  | O => EmptyString
  | S n' => String " " (spaces n')
  end.

Fixpoint join (ts : list string) (gaps : list nat) (trail : nat) : string :=
  match ts with
  | [] => spaces trail
  | t :: ts' =>
      match ts' with
      | [] => (t ++ spaces trail)%string
      | _ :: _ => (t ++ spaces (S (hd O gaps)) ++ join ts' (tl gaps) trail)%string
      end
  end.

Definition layout (lead : nat) (ts : list string) (gaps : list nat)
    (trail : nat) : string :=
  (spaces lead ++ join ts gaps trail)%string.

(** A token is not empty and holds no space. *)
Definition is_token (t : string) : Prop :=
  t <> EmptyString /\ strchr t " " = false.

(** The rest of a line behind the delimiter that ends a token. *)
Definition after_delim (s : string) : string :=
  match s with
  | EmptyString => EmptyString
  | String _ s' => s'
  end.

(** What may follow a token: the end of the line, or a space. *)
Definition ends_token (s : string) : Prop :=
  s = EmptyString \/ exists s', s = String " " s'.

(** The horizontal tab, a whitespace character that is not a space. *)
Definition TAB : string := String "009"%char EmptyString.

(** ** The characters of an operand *)

(** The characters [validOperand] lets through, a test on every character
    of a string, and the occurrences of a character. *)
Definition digit_or_dot (c : ascii) : bool := isdigit c || Ascii.eqb c ".".

Fixpoint string_forall (p : ascii -> bool) (s : string) : bool :=
  match s with
  | EmptyString => true
  | String c s' => p c && string_forall p s'
  end.

Fixpoint count_char (c : ascii) (s : string) : nat :=
  match s with
  | EmptyString => O
  | String d s' => ((if Ascii.eqb d c then 1 else 0) + count_char c s')%nat
  end.

(** A string of [n] decimal points. *)
Fixpoint dots (n : nat) : string :=
  match n with
  | O => EmptyString
  | S n' => String "." (dots n')
  end.

(** ** Folds and the sentinel *)

(** The decimal expansion of [DBL_MAX], [2^1024 - 2^971]. *)
Definition DBL_MAX_digits : string :=
  "179769313486231570814527423731704356798070567525844996598917476803157260780028538760589558632766878171540458953514382464234321326889464182768467546703537516986049910576551282076245490090389328944075868508455133942304583236903222948165808559332123348274797826204144723168738177180919299881250404026184124858368".

(** Left-to-right fold of [acc op y1 op y2 ...] with [applyOp], and the
    runs none of whose results is the sentinel. *)
Definition code_fold (op : ascii) (acc : float) (ys : list float) : float :=
  fold_left (fun a y => applyOp a y op) ys acc.

Fixpoint run_clean (op : ascii) (acc : float) (ys : list float) : bool :=
  match ys with
  | [] => true
  | y :: ys' =>
      negb (applyOp acc y op =? DBL_MAX)%float
      && run_clean op (applyOp acc y op) ys'
  end.

(** The arrays when the first [k] operators have been folded into [acc]:
    the slots of the group hold [acc] and, once something was folded, are
    all marked; nothing behind them has been touched. *)
Definition shape (k : nat) (acc : float) (ys : list float) (tail : list ascii)
    (st : locals) : Prop :=
  operators st = replicate k NUL ++ tail
  /\ operands st = replicate (S k) acc ++ ys
  /\ length ys = length tail
  /\ exists es,
       evaluated st = es ++ replicate (length ys) false
       /\ length es = S k
       /\ (k <> O -> es = replicate (S k) true).

(** No operation of the fold of [acc op1 y1 op2 y2 ...] returns the
    sentinel. *)
Fixpoint sentinel_free (acc : float) (rest : list (ascii * float)) : bool :=
  match rest with
  | [] => true
  | (op, y) :: rest' =>
      negb (applyOp acc y op =? DBL_MAX)%float
      && sentinel_free (applyOp acc y op) rest'
  end.

(** ** Expressions whose operators come in runs *)

(** A run is an operator and the operands it is applied to in turn:
    [x o1 y11 o1 y12 ... o2 y21 ...].  The operators, the operands behind
    the first, the pairs of both, and the fold of the runs with [applyOp]. *)
Definition runs_operators (runs : list (ascii * list float)) : list ascii :=
  flat_map (fun r => replicate (length (snd r)) (fst r)) runs.

Definition runs_operands (runs : list (ascii * list float)) : list float :=
  flat_map snd runs.

Definition runs_pairs (runs : list (ascii * list float))
  : list (ascii * float) :=
  flat_map (fun r => map (pair (fst r)) (snd r)) runs.

Definition runs_fold (acc : float) (runs : list (ascii * list float)) : float :=
  fold_left (fun a r => code_fold (fst r) a (snd r)) runs acc.

(** The runs of an expression ordered like [order_of_ops]: products, then
    quotients, then sums, then differences. *)
Definition ordered_runs (ms ds ps ss : list float)
  : list (ascii * list float) :=
  [("*"%char, ms); ("/"%char, ds); ("+"%char, ps); ("-"%char, ss)].

(** * The rest of the program: reading lines *)

(** Standard input is the list of the characters still to be read.
    [malloc] and [realloc] succeed, as in the evaluator, and the [size_t]
    counts are integers in [Z].

    [fgets(s, n, stdin)] stores at most [n - 1] characters, the last of
    them the first newline if there is one, and a terminator behind them;
    it returns NULL when the input is at its end and nothing was read.
    With [n = 1] it stores the terminator only. *)
Definition newline : ascii := "010"%char.

Fixpoint fgets_chars (k : nat) (stdin : list ascii) : list ascii * list ascii :=
  match k, stdin with
  | S k', c :: stdin' =>
      if Ascii.eqb c newline then ([c], stdin')
      else let '(chunk, rest) := fgets_chars k' stdin' in (c :: chunk, rest)
  | _, _ => ([], stdin)
  end.

Definition fgets (n : Z) (stdin : list ascii)
  : option (list ascii * list ascii) :=
  if n =? 1 then Some ([], stdin)
  else match fgets_chars (Z.to_nat (n - 1)) stdin with
       | ([], _) => None
       | (chunk, rest) => Some (chunk, rest)
       end.

(** The characters of a buffer before its first NUL: what [strlen] counts
    and what a reader of the string sees. *)
Fixpoint until_NUL (l : list ascii) : list ascii :=
  match l with
  | [] => []
  | c :: l' => if Ascii.eqb c NUL then [] else c :: until_NUL l'
  end.

(** A buffer read as a C string.  Without a NUL inside the buffer the read
    runs past its end. *)
Fixpoint c_str (buffer : list ascii) : outcome string :=
  match buffer with
  | [] => OutOfBounds
  | c :: rest =>
      if Ascii.eqb c NUL then Ret EmptyString
      else do s <- c_str rest; Ret (String c s)
  end.

(** *** [readline] *)

(** [readline] returns its buffer, an allocation of [num_char] bytes, or
    prints a message and calls [exit(EXIT_FAILURE)]. *)
Inductive read_result : Type :=
| Returned (buffer : list ascii) (stdin : list ascii)
| Exited (printed : string).

(** Lines 229 to 234.  [line_data] holds the [num_char] characters in
    front of the terminator; [realloc(line_data, num_char)] keeps these
    bytes and drops the terminator unless the newline was overwritten by
    one. *)
Definition readline_return (line_data stdin : list ascii) : outcome read_result :=
  do last <- load line_data (Z.of_nat (length line_data) - 1);
  if Ascii.eqb last newline
  then Ret (Returned (removelast line_data ++ [NUL]) stdin)
  else Ret (Returned line_data stdin).

(** Lines 202 to 227.  A call of [fgets] that returns a buffer has read at
    least one character, so the length of the input bounds the
    iterations. *)
Fixpoint readline_loop (fuel : nat) (stdin line_data : list ascii)
    (alloc_size : Z) : outcome read_result :=
  match fuel with
  | O => OutOfFuel
  | S fuel' =>
      let num_char := Z.of_nat (length line_data) in
      match fgets (alloc_size - num_char) stdin with
      | None => Ret (Exited ("Error reading from stdin!" ++ LF))
      | Some (chunk, stdin') =>
          let line_data' := line_data ++ until_NUL chunk in
          let num_char' := Z.of_nat (length line_data') in
          if num_char' <? alloc_size - 1 then readline_return line_data' stdin'
          else
            do last <- load line_data' (num_char' - 1);
            if Ascii.eqb last newline then readline_return line_data' stdin'
            else readline_loop fuel' stdin' line_data' (alloc_size + 128)
      end
  end.

Definition readline (stdin : list ascii) : outcome read_result :=
  readline_loop (S (length stdin)) stdin [] 128.

(** * The rest of the program: printing a result *)

(** [snprintf(s, n, "%.10f", val)].  The program never calls [setlocale],
    so the decimal point is ['.'].  A finite value is printed as its sign,
    the digits of its integer part, the point and ten decimals; the value
    printed is the exact value of the double rounded to ten decimals, ties
    to even, as IEC 60559 asks of the conversion.  What stands for an
    infinity or a NaN is the library's choice among [inf], [infinity],
    [nan], [nan(...)] and their negatives: the text [nonfinite]. *)
Definition round_half_even (n d : Z) : Z :=
  let q := n / d in
  match 2 * (n mod d) ?= d with
  | Lt => q
  | Eq => if Z.even q then q else q + 1
  | Gt => q + 1
  end.

(** [m * 2^e * 10^10], rounded to an integer. *)
Definition scaled (m : positive) (e : Z) : Z :=
  if 0 <=? e then Zpos m * 2 ^ e * 10 ^ 10
  else round_half_even (Zpos m * 10 ^ 10) (2 ^ (- e)).

Definition digit_char (d : Z) : ascii := ascii_of_nat (48 + Z.to_nat d).

Definition decimal (n : Z) : string :=
  NilZero.string_of_uint (N.to_uint (Z.to_N n)).

(** The last [k] decimal digits of [n]. *)
Fixpoint fixed_digits (k : nat) (n : Z) : string :=
  match k with
  | O => EmptyString
  | S k' => fixed_digits k' (n / 10) ++ String (digit_char (n mod 10)) EmptyString
  end.

Definition minus_sign (negative : bool) : string :=
  if negative then "-" else EmptyString.

Definition fixed10 (negative : bool) (n : Z) : string :=
  minus_sign negative ++ decimal (n / 10 ^ 10) ++ "." ++ fixed_digits 10 n.

Definition format_f10 (nonfinite : string) (val : float) : string :=
  match Prim2SF val with
  | S754_zero s => fixed10 s 0
  | S754_finite s m e => fixed10 s (scaled m e)
  | _ => nonfinite
  end.

(** The bytes [snprintf] writes for a text: at most [n - 1] characters
    and the terminator. *)
Definition snprintf (n : nat) (text : string) : list ascii :=
  take (n - 1) (list_ascii_of_string text) ++ [NUL].

(** [strchr(s, '\0')] as an index into [s]. *)
Fixpoint strchr_NUL (s : list ascii) (i : Z) : outcome Z :=
  match s with
  | [] => OutOfBounds
  | c :: s' => if Ascii.eqb c NUL then Ret i else strchr_NUL s' (i + 1)
  end.

(** *** [printResult] *)

(** [malloc(101)] succeeds.  [result_str] is the part of the 101 bytes
    that [snprintf] has written; an access outside of it reads a byte
    without a value or leaves the allocation.  [p] is an index into
    [result_str]. *)

(** Lines 353 and 354. *)
Fixpoint strip_zeros (fuel : nat) (result_str : list ascii) (p : Z)
  : outcome (list ascii * Z) :=
  match fuel with
  | O => OutOfFuel
  | S fuel' =>
      do c <- load result_str p;
      if Ascii.eqb c "0"
      then do result_str' <- store result_str p NUL;
           strip_zeros fuel' result_str' (p - 1)
      else Ret (result_str, p)
  end.

(** Lines 357 and 358. *)
Definition strip_point (result_str : list ascii) (p : Z) : outcome (list ascii) :=
  do c <- load result_str p;
  if Ascii.eqb c "." || Ascii.eqb c "," then store result_str p NUL
  else Ret result_str.

(** What [printResult(val)] prints. *)
Definition printResult (nonfinite : string) (val : float) : outcome string :=
  let result_str := snprintf 100 (format_f10 nonfinite val) in
  do p <- strchr_NUL result_str 0;
  do stripped <- strip_zeros (S (length result_str)) result_str (p - 1);
  do result_str' <- strip_point (fst stripped) (snd stripped);
  do text <- c_str result_str';
  Ret ("Result: " ++ text ++ LF)%string.

(** *** Definitions for the statements about [printResult] *)

(** A text without the zeros at its end, and without a point left at its
    end. *)
Fixpoint drop_zeros (l : list ascii) : list ascii :=
  match l with
  | c :: l' => if Ascii.eqb c "0" then drop_zeros l' else l
  | [] => []
  end.

Definition zeros_off (l : list ascii) : list ascii := rev (drop_zeros (rev l)).

Definition point_off (l : list ascii) : list ascii :=
  match rev l with
  | c :: l' => if Ascii.eqb c "." || Ascii.eqb c "," then rev l' else l
  | [] => []
  end.

(** What is left of a text that went through a buffer of 100 bytes. *)
Definition trimmed (text : string) : string :=
  string_of_list_ascii
    (point_off (zeros_off (take 99 (list_ascii_of_string text)))).

(** A double that is neither an infinity nor a NaN, its sign bit, and its
    absolute value in units of [10^-10]. *)
Definition finite_value (val : float) : bool :=
  match Prim2SF val with
  | S754_zero _ | S754_finite _ _ _ => true
  | _ => false
  end.

Definition sign_bit (val : float) : bool :=
  match Prim2SF val with
  | S754_zero s | S754_finite s _ _ | S754_infinity s => s
  | S754_nan => false
  end.

Definition decimals (val : float) : Z :=
  match Prim2SF val with
  | S754_finite _ m e => scaled m e
  | _ => 0
  end.

(** The decimals of a number as they should be shown: none for an
    integer, and no zero at the end. *)
Definition fraction (n : Z) : string :=
  if n mod 10 ^ 10 =? 0 then EmptyString
  else String "."
         (string_of_list_ascii
            (zeros_off (list_ascii_of_string (fixed_digits 10 n)))).

(** * The rest of the program: the session *)






(** *** Definitions for the statements about [main] *)






(** * Properties *)

#[local] Arguments Ascii.eqb : simpl never.
#[local] Arguments String.eqb : simpl never.

(** ** The tokenizer *)

Lemma token_end_length (s delim token save : string) :
  token_end s delim = (token, save) ->
  (String.length save <= String.length s)%nat.
Proof.
  revert token save. induction s as [|c s IH]; intros token save; simpl.
  - intros [= <- <-]. simpl. lia.
  - destruct (strchr delim c).
    + intros [= <- <-]. lia.
    + destruct (token_end s delim) as [tok sv] eqn:E.
      intros [= <- <-]. specialize (IH _ _ eq_refl). lia.
Qed.

Lemma strtok_shorter (s delim token save : string) :
  strtok s delim = Some (token, save) ->
  (String.length save < String.length s)%nat.
Proof.
  induction s as [|c s IH]; simpl; [discriminate|].
  destruct (strchr delim c) eqn:Hc.
  - intros H. specialize (IH H). lia.
  - destruct (token_end s delim) as [tok sv] eqn:E.
    intros [= <- <-]. apply token_end_length in E. lia.
Qed.

Lemma strtok_all_fuel (fuel1 fuel2 : nat) (s : string) :
  (String.length s < fuel1)%nat -> (String.length s < fuel2)%nat ->
  strtok_all fuel1 s = strtok_all fuel2 s.
Proof.
  revert fuel2 s. induction fuel1 as [|fuel1 IH]; intros fuel2 s H1 H2; [lia|].
  destruct fuel2 as [|fuel2]; [lia|]. simpl.
  destruct (strtok s " ") as [[token save]|] eqn:E; [|reflexivity].
  apply strtok_shorter in E. f_equal. apply IH; lia.
Qed.

Lemma tokens_unfold (s : string) :
  tokens s = match strtok s " " with
             | None => []
             | Some (token, save) => token :: tokens save
             end.
Proof.
  unfold tokens at 1. simpl.
  destruct (strtok s " ") as [[token save]|] eqn:E; [|reflexivity].
  apply strtok_shorter in E. f_equal. apply strtok_all_fuel; lia.
Qed.

(** The parsing loop has fuel for every line, and reads the tokens of the
    line one by one. *)
Lemma parse_loop_tokens (fuel : nat) (token save : string) (po : bool)
    (st : locals) :
  (String.length save < fuel)%nat ->
  parse_loop fuel (Some token) save po st
  = Ret (parse_tokens (token :: tokens save) po st).
Proof.
  revert token save po st.
  induction fuel as [|fuel IH]; intros token save po st Hf; [lia|].
  simpl. rewrite (tokens_unfold save).
  destruct po; simpl.
  - destruct (validOperand token); simpl; [|reflexivity].
    destruct (strtok save " ") as [[token' save']|] eqn:E.
    + apply strtok_shorter in E. rewrite IH by lia. reflexivity.
    + destruct fuel; reflexivity.
  - destruct (validOperator token); simpl; [|reflexivity].
    destruct (strtok save " ") as [[token' save']|] eqn:E.
    + apply strtok_shorter in E. rewrite IH by lia. reflexivity.
    + destruct fuel; reflexivity.
Qed.

Lemma parse_tokens_eq (exp : string) :
  parse exp = Ret (parse_tokens (tokens exp) true init).
Proof.
  unfold parse. rewrite (tokens_unfold exp).
  destruct (strtok exp " ") as [[token save]|] eqn:E.
  - apply strtok_shorter in E. rewrite parse_loop_tokens by lia. reflexivity.
  - reflexivity.
Qed.

Lemma run_tokens (exp : string) (result : float) :
  run exp result
  = evaluate
      (calloc_evaluated (check_last_operand (parse_tokens (tokens exp) true init)))
      result.
Proof. unfold run. rewrite parse_tokens_eq. reflexivity. Qed.

(** ** Arrays *)

Lemma load_lookup {A : Type} (a : list A) (i : nat) (x : A) :
  a !! i = Some x -> load a (Z.of_nat i) = Ret x.
Proof.
  intros H. unfold load.
  destruct (Z.ltb_spec (Z.of_nat i) 0); [lia|].
  rewrite Nat2Z.id, H. reflexivity.
Qed.

Lemma store_insert {A : Type} (a : list A) (i : nat) (v : A) :
  (i < length a)%nat -> store a (Z.of_nat i) v = Ret (<[i := v]> a).
Proof.
  intros H. unfold store.
  destruct (Z.leb_spec 0 (Z.of_nat i)); [|lia].
  destruct (Z.ltb_spec (Z.of_nat i) (Z.of_nat (length a))); [|lia].
  simpl. rewrite Nat2Z.id. reflexivity.
Qed.

Lemma find_op_lookup (op : ascii) (l : list ascii) (i : nat) :
  find_op op l = Some i -> l !! i = Some op.
Proof.
  revert i. induction l as [|c l IH]; intros i; simpl; [discriminate|].
  destruct (Ascii.eqb_spec c op) as [->|Hne].
  - intros [= <-]. reflexivity.
  - destruct (find_op op l) as [k|]; simpl; [|discriminate].
    intros [= <-]. simpl. apply IH. reflexivity.
Qed.

Lemma find_op_lt (op : ascii) (l : list ascii) (i : nat) :
  find_op op l = Some i -> (i < length l)%nat.
Proof. intros H. apply find_op_lookup in H. eapply lookup_lt_Some, H. Qed.

(** Clearing the slot found takes one off the active slots. *)
Lemma active_clear (op : ascii) (l : list ascii) (i : nat) :
  op <> NUL -> l !! i = Some op ->
  S (active op (<[i := NUL]> l)) = active op l.
Proof.
  intros Hop. revert i. induction l as [|c l IH]; intros i; [discriminate|].
  destruct i as [|i]; simpl.
  - intros [= ->]. rewrite Ascii.eqb_refl.
    destruct (Ascii.eqb_spec NUL op); [congruence|]. reflexivity.
  - intros H. rewrite <- (IH i H). lia.
Qed.

(** [indexOfOp] reads inside the array and returns the first slot that
    holds [op], or [-1]. *)
Lemma indexOfOp_from_find (op : ascii) (pre l : list ascii) :
  indexOfOp_from (length l) (pre ++ l) op (Z.of_nat (length pre))
  = Ret (match find_op op l with
         | Some k => Z.of_nat (length pre + k)
         | None => -1
         end).
Proof.
  revert pre. induction l as [|c l IH]; intros pre; simpl; [reflexivity|].
  rewrite (load_lookup _ _ c); [|by apply list_lookup_middle].
  simpl. destruct (Ascii.eqb c op).
  - do 2 f_equal. lia.
  - replace (Z.of_nat (length pre) + 1) with (Z.of_nat (length (pre ++ [c])))
      by (rewrite length_app; simpl; lia).
    rewrite (cons_middle c pre l), app_assoc, IH.
    rewrite length_app. simpl.
    destruct (find_op op l); simpl; do 2 f_equal; lia.
Qed.

Lemma indexOfOp_find (op : ascii) (l : list ascii) :
  indexOfOp l op (Z.of_nat (length l))
  = Ret (match find_op op l with
         | Some k => Z.of_nat k
         | None => -1
         end).
Proof.
  unfold indexOfOp. rewrite Nat2Z.id.
  apply (indexOfOp_from_find op [] l).
Qed.

Lemma length_merge (v : float) (ev : list bool) (ops : list float) :
  length ev = length ops -> length (merge v ev ops) = length ops.
Proof. intros H. unfold merge. rewrite length_zip_with. lia. Qed.

Lemma propagate_merge_from (v : float) (ev1 ev2 : list bool)
    (ops1 ops2 : list float) :
  length ev1 = length ops1 -> length ev2 = length ops2 ->
  propagate (length ops2) (Z.of_nat (length ops1)) v (ev1 ++ ev2) (ops1 ++ ops2)
  = Ret (ops1 ++ merge v ev2 ops2).
Proof.
  revert ev1 ev2 ops1.
  induction ops2 as [|x ops2 IH]; intros ev1 ev2 ops1 H1 H2.
  - destruct ev2; [|discriminate]. reflexivity.
  - destruct ev2 as [|e ev2]; [discriminate|]. injection H2 as H2. simpl.
    rewrite (load_lookup _ _ e);
      [|rewrite <- H1; by apply list_lookup_middle].
    assert (Hnext : Z.of_nat (length ops1) + 1 = Z.of_nat (length (ops1 ++ [x])))
      by (rewrite length_app; simpl; lia).
    simpl. destruct e.
    + rewrite store_insert by (rewrite length_app; simpl; lia).
      simpl. rewrite Hnext.
      replace (<[length ops1 := v]> (ops1 ++ x :: ops2))
        with ((ops1 ++ [v]) ++ ops2)
        by (rewrite insert_app_r_alt, Nat.sub_diag by lia;
            simpl; by rewrite <- app_assoc).
      replace (length (ops1 ++ [x])) with (length (ops1 ++ [v]))
        by (rewrite !length_app; reflexivity).
      rewrite (cons_middle true ev1 ev2), app_assoc.
      rewrite IH; [|rewrite !length_app; simpl; lia|assumption].
      by rewrite <- app_assoc.
    + rewrite Hnext.
      rewrite (cons_middle false ev1 ev2), (cons_middle x ops1 ops2), !app_assoc.
      rewrite IH; [|rewrite !length_app; simpl; lia|assumption].
      by rewrite <- app_assoc.
Qed.

Lemma propagate_merge (v : float) (ev : list bool) (ops : list float) :
  length ev = length ops ->
  propagate (length ops) 0 v ev ops = Ret (merge v ev ops).
Proof. intros H. by apply (propagate_merge_from v [] ev [] ops). Qed.

(** ** One pass of the evaluation *)

Lemma fold_at_well_sized (st : locals) (i : nat) (v : float) :
  well_sized st -> well_sized (fold_at st i v).
Proof.
  intros [H1 H2]. unfold well_sized, fold_at. simpl.
  rewrite length_merge by (rewrite !length_insert; exact H2).
  rewrite !length_insert. auto.
Qed.

Lemma while_loop_done (fuel : nat) (op : ascii) (st : locals) :
  find_op op (operators st) = None -> while_loop (S fuel) op st = Ret st.
Proof.
  intros H. cbn [while_loop]. unfold num_operators.
  rewrite indexOfOp_find, H. reflexivity.
Qed.

Lemma while_loop_apply (fuel : nat) (op : ascii) (st : locals) (i : nat) :
  well_sized st -> find_op op (operators st) = Some i ->
  exists a b,
    operands st !! i = Some a /\ operands st !! S i = Some b /\
    while_loop (S fuel) op st
    = if (applyOp a b op =? DBL_MAX)%float then Ret (abort st i)
      else while_loop fuel op (fold_at st i (applyOp a b op)).
Proof.
  intros [H1 H2] Hi. pose proof (find_op_lt _ _ _ Hi) as Hlt.
  destruct (lookup_lt_is_Some_2 (operands st) i) as [a Ha]; [lia|].
  destruct (lookup_lt_is_Some_2 (operands st) (S i)) as [b Hb]; [lia|].
  exists a, b. split; [exact Ha|]. split; [exact Hb|].
  cbn [while_loop]. unfold num_operators, num_operands.
  rewrite indexOfOp_find, Hi. cbn [bind].
  destruct (Z.eqb_spec (Z.of_nat i) (-1)); [lia|].
  rewrite (load_lookup _ _ _ Ha). cbn [bind].
  replace (Z.of_nat i + 1) with (Z.of_nat (S i)) by lia.
  rewrite (load_lookup _ _ _ Hb). cbn [bind].
  destruct (applyOp a b op =? DBL_MAX)%float; [reflexivity|].
  rewrite store_insert by lia. cbn [bind].
  rewrite store_insert by (rewrite length_insert; lia). cbn [bind].
  rewrite Nat2Z.id, propagate_merge by (rewrite !length_insert; exact H2).
  cbn [bind]. rewrite store_insert by lia. reflexivity.
Qed.

Lemma active_le_length (op : ascii) (l : list ascii) :
  (active op l <= length l)%nat.
Proof. induction l as [|c l IH]; simpl; [lia|]. destruct (Ascii.eqb c op); lia. Qed.

Lemma fold_at_log (op : ascii) (st : locals) (i : nat) (v : float) :
  op <> NUL -> operators st !! i = Some op ->
  NoDup (applied st) -> cleared st ->
  NoDup (Z.of_nat i :: applied st) /\ cleared (fold_at st i v).
Proof.
  intros Hop Hi Hnd Hcl. split.
  - apply NoDup_cons_2; [|exact Hnd].
    intros Hin. destruct (Hcl _ Hin) as (k & Hk & Hnul).
    apply Nat2Z.inj in Hk. subst k. congruence.
  - intros z Hz. unfold fold_at in *. simpl in *.
    apply elem_of_cons in Hz as [->|Hz].
    + exists i. split; [reflexivity|].
      apply list_lookup_insert_eq. eapply lookup_lt_Some, Hi.
    + destruct (Hcl _ Hz) as (k & -> & Hnul). exists k. split; [reflexivity|].
      destruct (decide (i = k)) as [->|Hne]; [congruence|].
      rewrite list_lookup_insert_ne by exact Hne. exact Hnul.
Qed.

Lemma while_loop_inv (fuel : nat) (op : ascii) (st : locals) :
  well_sized st ->
  match while_loop fuel op st with
  | Ret st' =>
      well_sized st'
      /\ length (operators st') = length (operators st)
      /\ quiet_or_aborted st st'
      /\ (op <> NUL -> NoDup (applied st) -> cleared st ->
          NoDup (applied st') /\ (error_occurred st' = false -> cleared st'))
  | OutOfBounds => False
  | OutOfFuel => op <> NUL -> (fuel <= active op (operators st))%nat
  end.
Proof.
  revert st. induction fuel as [|fuel IH]; intros st Hws.
  { simpl. lia. }
  destruct (find_op op (operators st)) as [i|] eqn:Hi.
  - destruct (while_loop_apply fuel op st i Hws Hi) as (a & b & Ha & Hb & ->).
    pose proof (find_op_lookup _ _ _ Hi) as Hop.
    destruct (applyOp a b op =? DBL_MAX)%float.
    + split; [exact Hws|]. split; [reflexivity|].
      split; [right; split; reflexivity|].
      intros Hne Hnd Hcl. split; [|discriminate].
      apply (fold_at_log op st i 0%float); assumption.
    + specialize (IH (fold_at st i (applyOp a b op))
                     (fold_at_well_sized _ _ _ Hws)).
      destruct (while_loop fuel op (fold_at st i (applyOp a b op)))
        as [st'| |]; [|exact IH|].
      * destruct IH as (Hws' & Hlen & Hq & Hlog).
        split; [exact Hws'|].
        split; [rewrite Hlen; simpl; apply length_insert|].
        split; [exact Hq|].
        intros Hne Hnd Hcl.
        destruct (fold_at_log op st i (applyOp a b op) Hne Hop Hnd Hcl).
        apply Hlog; assumption.
      * intros Hne. specialize (IH Hne). simpl in IH.
        rewrite <- (active_clear op _ i Hne Hop). lia.
  - rewrite while_loop_done by exact Hi.
    split; [exact Hws|]. split; [reflexivity|].
    split; [left; split; reflexivity|]. intros _ Hnd Hcl. auto.
Qed.

(** A pass that starts with a unit of fuel per slot and one more ends. *)
Lemma while_loop_total (op : ascii) (st : locals) :
  well_sized st -> op <> NUL ->
  exists st', while_loop (S (length (operators st))) op st = Ret st'.
Proof.
  intros Hws Hop. pose proof (while_loop_inv (S (length (operators st))) op st Hws) as H.
  destruct (while_loop _ op st) as [st'| |]; [eauto|contradiction|].
  specialize (H Hop). pose proof (active_le_length op (operators st)). lia.
Qed.

(** More fuel does not change what a pass returns. *)
Lemma while_loop_fuel_mono (fuel fuel' : nat) (op : ascii) (st st' : locals) :
  while_loop fuel op st = Ret st' -> (fuel <= fuel')%nat ->
  while_loop fuel' op st = Ret st'.
Proof.
  revert fuel' st. induction fuel as [|fuel IH]; intros fuel' st; [discriminate|].
  destruct fuel' as [|fuel']; [lia|]. intros H Hle. revert H.
  cbn [while_loop].
  destruct (indexOfOp (operators st) op (num_operators st)) as [i| |];
    cbn [bind]; try discriminate.
  destruct (i =? -1); [auto|].
  destruct (load (operands st) i) as [a| |]; cbn [bind]; try discriminate.
  destruct (load (operands st) (i + 1)) as [b| |]; cbn [bind]; try discriminate.
  destruct (applyOp a b op =? DBL_MAX)%float; [auto|].
  destruct (store (evaluated st) i true) as [ev1| |]; cbn [bind]; try discriminate.
  destruct (store ev1 (i + 1) true) as [ev2| |]; cbn [bind]; try discriminate.
  destruct (propagate _ 0 _ ev2 (operands st)) as [ops| |];
    cbn [bind]; try discriminate.
  destruct (store (operators st) i NUL) as [ors| |]; cbn [bind]; try discriminate.
  intros H. apply IH; [exact H|lia].
Qed.

(** ** All the passes *)

Lemma for_ops_inv (ops : list ascii) (st : locals) :
  well_sized st -> Forall (fun op => op <> NUL) ops ->
  exists st',
    for_ops ops st = Ret st'
    /\ well_sized st'
    /\ quiet_or_aborted st st'
    /\ (NoDup (applied st) -> cleared st -> NoDup (applied st')).
Proof.
  revert st. induction ops as [|op ops IH]; intros st Hws Hops.
  { exists st. simpl. split; [reflexivity|]. split; [assumption|].
    split; [left; split; reflexivity|]. auto. }
  apply Forall_cons in Hops as [Hop Hops].
  destruct (while_loop_total op st Hws Hop) as [st1 H1].
  pose proof (while_loop_inv (S (length (operators st))) op st Hws) as Hinv.
  cbn [for_ops]. rewrite H1 in *. cbn [bind].
  destruct Hinv as (Hws1 & _ & Hq1 & Hlog1).
  destruct (error_occurred st1) eqn:Herr.
  - exists st1. split; [reflexivity|]. split; [assumption|].
    split; [exact Hq1|]. intros Hnd Hcl. apply Hlog1; assumption.
  - destruct (IH st1 Hws1 Hops) as (st' & Hfor & Hws' & Hq' & Hlog').
    exists st'. split; [exact Hfor|]. split; [exact Hws'|]. split.
    + destruct Hq1 as [[He1 Ho1]|[He1 _]]; [|congruence].
      destruct Hq' as [[He' Ho']|[He' Ho']].
      * left. split; congruence.
      * right. split; congruence.
    + intros Hnd Hcl. destruct (Hlog1 Hop Hnd Hcl) as [Hnd1 Hcl1].
      apply Hlog'; auto.
Qed.

Lemma order_of_ops_not_NUL : Forall (fun op => op <> NUL) order_of_ops.
Proof. unfold order_of_ops. repeat constructor; discriminate. Qed.

(** ** The parsing loop *)


Lemma parse_tokens_valid (toks : list string) (po : bool) (st : locals) :
  all_valid po toks = true ->
  parse_tokens toks po st
  = Locals (operands st ++ operands_of po toks)
      (operators st ++ operators_of po toks)
      (evaluated st) (error_occurred st) (stdout st) (applied st).
Proof.
  revert po st. induction toks as [|token toks IH]; intros po st.
  - intros _. simpl. rewrite !app_nil_r. by destruct st.
  - simpl. intros [Hv Hrest]%andb_prop.
    destruct po; simpl in Hv; rewrite Hv; simpl;
      rewrite IH by exact Hrest; simpl; by rewrite <- app_assoc.
Qed.


(** Operands and operators alternate, operands first. *)
Lemma alternation (toks : list string) (po : bool) :
  let extra := if Nat.even (length toks) then O else 1%nat in
  if po
  then length (operands_of po toks) = (length (operators_of po toks) + extra)%nat
  else length (operators_of po toks) = (length (operands_of po toks) + extra)%nat.
Proof.
  revert po. induction toks as [|token toks IH]; intros po.
  - destruct po; reflexivity.
  - specialize (IH (negb po)). cbn zeta in *.
    simpl length. rewrite Nat.even_succ, <- Nat.negb_even.
    destruct po; simpl in *; destruct (Nat.even (length toks)); simpl; lia.
Qed.

Lemma parse_tokens_log (toks : list string) (po : bool) (st : locals) :
  applied (parse_tokens toks po st) = applied st.
Proof.
  revert po st. induction toks as [|token toks IH]; intros po st; [reflexivity|].
  simpl. destruct po.
  - destruct (validOperand token); simpl; [by rewrite IH|reflexivity].
  - destruct (validOperator token); simpl; [by rewrite IH|reflexivity].
Qed.

(** ** The evaluation as a whole *)

(** After the structural check and [calloc], the arrays of a state without
    error have the sizes the evaluation relies on. *)
Lemma checked_well_sized (parsed : locals) :
  error_occurred (calloc_evaluated (check_last_operand parsed)) = false ->
  well_sized (calloc_evaluated (check_last_operand parsed)).
Proof.
  unfold check_last_operand, calloc_evaluated, well_sized, num_operands, num_operators.
  destruct (error_occurred parsed) eqn:He; simpl; [by rewrite He|].
  destruct (Z.eqb_spec (Z.of_nat (length (operands parsed))
                        - Z.of_nat (length (operators parsed))) 1) as [Hd|Hd];
    simpl; [|discriminate].
  intros _. rewrite length_replicate. lia.
Qed.

Lemma evaluate_inv (st : locals) (result : float) :
  well_sized st -> error_occurred st = false ->
  exists st' r,
    evaluate st result = Ret (st', r)
    /\ quiet_or_aborted st st'
    /\ (if error_occurred st' then r = 0%float else operands st' !! O = Some r)
    /\ (NoDup (applied st) -> cleared st -> NoDup (applied st')).
Proof.
  intros Hws He.
  destruct (for_ops_inv order_of_ops st Hws order_of_ops_not_NUL)
    as (st' & Hfor & Hws' & Hq & Hlog).
  unfold evaluate. rewrite He, Hfor. cbn [negb bind].
  destruct (error_occurred st') eqn:He'.
  - exists st', 0%float. rewrite He'. auto.
  - destruct Hws' as [Hlen _].
    destruct (lookup_lt_is_Some_2 (operands st') O) as [r Hr]; [lia|].
    pose proof (load_lookup _ O r Hr) as Hload. change (Z.of_nat 0) with 0 in Hload.
    exists st', r. rewrite Hload, He'. cbn [bind]. auto.
Qed.

Lemma evaluate_failed (st : locals) (result : float) :
  error_occurred st = true -> evaluate st result = Ret (st, result).
Proof. intros He. unfold evaluate. by rewrite He. Qed.

Lemma evalExpression_tokens (exp : string) (result : float) :
  evalExpression exp result
  = do r <- evaluate
              (calloc_evaluated
                 (check_last_operand (parse_tokens (tokens exp) true init)))
              result;
    Ret (negb (error_occurred (fst r)), snd r, stdout (fst r)).
Proof. unfold evalExpression. by rewrite run_tokens. Qed.

(** ** The structural check *)

Lemma missing_operand_decides (parsed : locals) (result : float) :
  error_occurred parsed = false -> stdout parsed = EmptyString ->
  (do r <- evaluate (calloc_evaluated (check_last_operand parsed)) result;
   Ret (negb (error_occurred (fst r)), snd r, stdout (fst r)))
  = Ret (false, result, ("Missing last operand" ++ LF)%string)
  <-> num_operands parsed - num_operators parsed <> 1.
Proof.
  intros He Hout.
  pose proof (checked_well_sized parsed) as Hws.
  unfold check_last_operand in *. rewrite He in *. cbn [negb andb] in *.
  destruct (Z.eqb_spec (num_operands parsed - num_operators parsed) 1) as [Hd|Hd];
    cbn [negb] in *.
  - split; [|intros Hne; contradiction].
    specialize (Hws He).
    destruct (evaluate_inv _ result Hws He) as (st' & r & -> & Hq & _).
    cbn [bind fst snd]. intros [= _ _ Hmsg].
    destruct Hq as [[_ Hs]|[_ Hs]]; rewrite Hs in Hmsg; simpl in Hmsg;
      rewrite Hout in Hmsg; discriminate.
  - split; [intros _; exact Hd|intros _].
    rewrite evaluate_failed by reflexivity.
    cbn [bind fst snd]. simpl. rewrite Hout. reflexivity.
Qed.

(** The counters of the parsing loop count tokens: on a line of at most
    [INT_MAX] tokens [++num_operands] and [++num_operators] stay within
    [int]. *)
Lemma parse_tokens_counters (toks : list string) (po : bool) (st : locals) :
  (length (operands (parse_tokens toks po st))
   + length (operators (parse_tokens toks po st))
   <= length (operands st) + length (operators st) + length toks)%nat.
Proof.
  revert po st. induction toks as [|token toks IH]; intros po st;
    cbn [parse_tokens length]; [lia|].
  destruct po.
  - destruct (negb (validOperand token)); cbn [operands operators]; [lia|].
    etransitivity; [apply IH|]. cbn [operands operators].
    rewrite length_app. cbn [length]. lia.
  - destruct (negb (validOperator token)); cbn [operands operators]; [lia|].
    etransitivity; [apply IH|]. cbn [operands operators].
    rewrite length_app. cbn [length]. lia.
Qed.

Lemma counters_within_int (exp : string) (parsed : locals) :
  Z.of_nat (length (tokens exp)) <= INT_MAX ->
  parse exp = Ret parsed ->
  0 <= num_operands parsed <= INT_MAX /\ 0 <= num_operators parsed <= INT_MAX.
Proof.
  intros Hbound. rewrite parse_tokens_eq. intros [= <-].
  pose proof (parse_tokens_counters (tokens exp) true init) as H.
  cbn [init operands operators length] in H.
  unfold num_operands, num_operators. lia.
Qed.

(** C5.  On a line of at most [INT_MAX] tokens, when every token passes
    the check of its position, the parsing loop ends without error, and
    [evalExpression] fails with "Missing last operand" (returning false,
    printing that line and leaving [*result] alone) exactly when
    [num_operands - num_operators] is not 1.
    The difference is 1 for an odd number of tokens and 0 for an even
    number.  The empty line and the line ["3 +"] fail in this way. *)
Theorem missing_last_operand_iff :
  (forall (exp : string) (result : float),
      Z.of_nat (length (tokens exp)) <= INT_MAX ->
      all_valid true (tokens exp) = true ->
      exists parsed,
        parse exp = Ret parsed
        /\ error_occurred parsed = false
        /\ (evalExpression exp result
            = Ret (false, result, ("Missing last operand" ++ LF)%string)
            <-> num_operands parsed - num_operators parsed <> 1)
        /\ num_operands parsed - num_operators parsed
           = (if Nat.even (length (tokens exp)) then 0 else 1))
  /\ (forall result : float,
         evalExpression "" result
         = Ret (false, result, ("Missing last operand" ++ LF)%string))
  /\ (forall result : float,
         evalExpression "3 +" result
         = Ret (false, result, ("Missing last operand" ++ LF)%string)).
Proof.
  split; [|split; intros result; vm_compute; reflexivity].
  intros exp result _ Hv.
  exists (parse_tokens (tokens exp) true init).
  split; [apply parse_tokens_eq|].
  rewrite evalExpression_tokens, parse_tokens_valid by exact Hv.
  split; [reflexivity|].
  split; [apply missing_operand_decides; reflexivity|].
  pose proof (alternation (tokens exp) true) as Halt.
  unfold num_operands, num_operators. cbn [operands operators init app] in *.
  rewrite Halt. destruct (Nat.even (length (tokens exp))); lia.
Qed.

Lemma missing_last_operand_iff_witness :
  Z.of_nat (length (tokens "3 + 4 *")) <= INT_MAX
  /\ all_valid true (tokens "3 + 4 *") = true
  /\ exists parsed,
       parse "3 + 4 *" = Ret parsed
       /\ error_occurred parsed = false
       /\ (evalExpression "3 + 4 *" 0%float
           = Ret (false, 0%float, ("Missing last operand" ++ LF)%string)
           <-> num_operands parsed - num_operators parsed <> 1)
       /\ num_operands parsed - num_operators parsed
          = (if Nat.even (length (tokens "3 + 4 *")) then 0 else 1).
Proof.
  assert (H1 : Z.of_nat (length (tokens "3 + 4 *")) <= INT_MAX)
    by (vm_compute; discriminate).
  split; [exact H1|]. split; [reflexivity|].
  apply (proj1 missing_last_operand_iff "3 + 4 *" 0%float H1). reflexivity.
Defined.

(** ** The first invalid token *)






(** ** Memory safety of the evaluation *)

Lemma check_passed (parsed : locals) :
  num_operands parsed = num_operators parsed + 1 ->
  check_last_operand parsed = parsed.
Proof.
  intros Hn. unfold check_last_operand.
  replace (num_operands parsed - num_operators parsed =? 1) with true
    by (symmetry; apply Z.eqb_eq; lia).
  by rewrite andb_false_r.
Qed.

Lemma calloc_well_sized (parsed : locals) :
  num_operands parsed = num_operators parsed + 1 ->
  well_sized (calloc_evaluated (check_last_operand parsed)).
Proof.
  intros Hn. rewrite check_passed by exact Hn. revert Hn.
  unfold num_operands, num_operators, well_sized, calloc_evaluated.
  intros Hn. cbn [operands operators evaluated].
  rewrite length_replicate. unfold num_operands. lia.
Qed.

(** C9.  When the structural check has found
    [num_operands = num_operators + 1] and [evaluated] has been allocated
    with [num_operands] entries, the arrays are [well_sized] and the
    evaluation never leaves an array.  In a [well_sized] state, [indexOfOp]
    reads inside [operators] and returns [-1] or a slot [i] with
    [0 <= i < num_operators], at which [operands[i]], [operands[i + 1]],
    [evaluated[i]] and [evaluated[i + 1]] are inside their arrays; a pass of
    the [while] loop never leaves an array, and the state it returns is
    [well_sized] again. *)
Theorem evaluation_in_bounds :
  (forall (parsed : locals) (result : float),
      num_operands parsed = num_operators parsed + 1 ->
      well_sized (calloc_evaluated (check_last_operand parsed))
      /\ evaluate (calloc_evaluated (check_last_operand parsed)) result
         <> OutOfBounds)
  /\ (forall st : locals,
         well_sized st ->
         (forall op : ascii, exists i : Z,
             indexOfOp (operators st) op (num_operators st) = Ret i
             /\ (i = -1
                 \/ (0 <= i < num_operators st
                     /\ exists a b ev1 ev2,
                          load (operands st) i = Ret a
                          /\ load (operands st) (i + 1) = Ret b
                          /\ store (evaluated st) i true = Ret ev1
                          /\ store ev1 (i + 1) true = Ret ev2)))
         /\ (forall (fuel : nat) (op : ascii),
                while_loop fuel op st <> OutOfBounds
                /\ forall st', while_loop fuel op st = Ret st' -> well_sized st')).
Proof.
  split.
  - intros parsed result Hn.
    pose proof (calloc_well_sized parsed Hn) as Hws. split; [exact Hws|].
    destruct (error_occurred (calloc_evaluated (check_last_operand parsed))) eqn:He.
    + by rewrite evaluate_failed.
    + destruct (evaluate_inv _ result Hws He) as (st' & r & -> & _). discriminate.
  - intros st Hws. split.
    + intros op. unfold num_operators. rewrite indexOfOp_find.
      destruct Hws as [Hn Hev].
      destruct (find_op op (operators st)) as [k|] eqn:Hk; [|eauto].
      exists (Z.of_nat k). split; [reflexivity|]. right.
      pose proof (find_op_lt _ _ _ Hk) as Hlt. split; [lia|].
      destruct (lookup_lt_is_Some_2 (operands st) k) as [a Ha]; [lia|].
      destruct (lookup_lt_is_Some_2 (operands st) (S k)) as [b Hb]; [lia|].
      exists a, b, (<[k := true]> (evaluated st)),
        (<[S k := true]> (<[k := true]> (evaluated st))).
      replace (Z.of_nat k + 1) with (Z.of_nat (S k)) by lia.
      split; [by apply load_lookup|]. split; [by apply load_lookup|].
      split; apply store_insert; rewrite ?length_insert; lia.
    + intros fuel op. pose proof (while_loop_inv fuel op st Hws) as H.
      split.
      * intros Hoob. by rewrite Hoob in H.
      * intros st' Hrun. rewrite Hrun in H. apply H.
Qed.

Lemma evaluation_in_bounds_witness :
  let parsed := Locals [1; 2; 3]%float ["+"; "*"]%char [] false EmptyString [] in
  num_operands parsed = num_operators parsed + 1
  /\ well_sized (calloc_evaluated (check_last_operand parsed))
  /\ evaluate (calloc_evaluated (check_last_operand parsed)) 0%float
     <> OutOfBounds.
Proof.
  intros parsed. split; [reflexivity|].
  apply (proj1 evaluation_in_bounds parsed 0%float). reflexivity.
Defined.

(** ** Termination *)

Lemma checked_log (parsed : locals) :
  applied (calloc_evaluated (check_last_operand parsed)) = applied parsed.
Proof.
  unfold calloc_evaluated, check_last_operand.
  by destruct (negb (error_occurred parsed)
               && negb (num_operands parsed - num_operators parsed =? 1)).
Qed.

(** C10.  [evalExpression] returns on every line of at most [INT_MAX]
    tokens.  No symbol of [order_of_ops] is the sentinel 0, so clearing
    the slot [indexOfOp] found leaves strictly fewer slots that hold the
    symbol of the pass; a pass that starts with more fuel than there are such slots ends, and
    more fuel does not change what it returns; and no slot is applied twice
    in a run. *)
Theorem evaluation_terminates :
  (forall (exp : string) (result : float),
      Z.of_nat (length (tokens exp)) <= INT_MAX ->
      exists b v out, evalExpression exp result = Ret (b, v, out))
  /\ Forall (fun op => op <> NUL) order_of_ops
  /\ (forall (st : locals) (op : ascii) (i : Z),
         op <> NUL ->
         indexOfOp (operators st) op (num_operators st) = Ret i ->
         i <> -1 ->
         exists operators',
           store (operators st) i NUL = Ret operators'
           /\ (active op operators' < active op (operators st))%nat)
  /\ (forall (st : locals) (op : ascii) (fuel : nat),
         well_sized st -> op <> NUL ->
         (active op (operators st) < fuel)%nat ->
         exists st',
           while_loop fuel op st = Ret st'
           /\ forall fuel' : nat,
                (fuel <= fuel')%nat -> while_loop fuel' op st = Ret st')
  /\ (forall (exp : string) (result : float) (st : locals) (r : float),
         Z.of_nat (length (tokens exp)) <= INT_MAX ->
         run exp result = Ret (st, r) -> NoDup (applied st)).
Proof.
  split; [|split; [|split; [|split]]].
  - intros exp result _. rewrite evalExpression_tokens.
    set (st := calloc_evaluated _).
    destruct (error_occurred st) eqn:He.
    + rewrite evaluate_failed by exact He. cbn [bind]. eauto.
    + destruct (evaluate_inv st result (checked_well_sized _ He) He)
        as (st' & r & -> & _).
      cbn [bind]. eauto.
  - exact order_of_ops_not_NUL.
  - intros st op i Hop. unfold num_operators. rewrite indexOfOp_find.
    destruct (find_op op (operators st)) as [k|] eqn:Hk;
      intros [= <-] Hi; [|contradiction].
    pose proof (find_op_lt _ _ _ Hk). pose proof (find_op_lookup _ _ _ Hk) as Hl.
    exists (<[k := NUL]> (operators st)). split; [by apply store_insert|].
    rewrite <- (active_clear op _ k Hop Hl). lia.
  - intros st op fuel Hws Hop Hfuel.
    pose proof (while_loop_inv fuel op st Hws) as H.
    destruct (while_loop fuel op st) as [st'| |] eqn:Hrun; [|contradiction|].
    + exists st'. split; [reflexivity|].
      intros fuel' Hle. by apply (while_loop_fuel_mono fuel).
    + specialize (H Hop). lia.
  - intros exp result st r _. rewrite run_tokens.
    set (st0 := calloc_evaluated _).
    assert (Hlog : applied st0 = []).
    { unfold st0. by rewrite checked_log, parse_tokens_log. }
    destruct (error_occurred st0) eqn:He.
    + rewrite evaluate_failed by exact He. intros [= <- _].
      rewrite Hlog. constructor.
    + destruct (evaluate_inv st0 result (checked_well_sized _ He) He)
        as (st' & r' & -> & _ & _ & Hnd).
      intros [= <- _]. apply Hnd.
      * rewrite Hlog. constructor.
      * intros z Hz. rewrite Hlog in Hz. by apply elem_of_nil in Hz.
Qed.

Lemma evaluation_terminates_witness :
  let st := Locals [6; 3; 2]%float ["-"; "-"]%char [false; false; false]
              false EmptyString [] in
  (Z.of_nat (length (tokens "6 - 3 - 2")) <= INT_MAX
   /\ exists b v out, evalExpression "6 - 3 - 2" 0%float = Ret (b, v, out))
  /\ (well_sized st /\ "-"%char <> NUL
      /\ (active "-" (operators st) < 3)%nat
      /\ exists st',
           while_loop 3 "-" st = Ret st'
           /\ forall fuel' : nat,
                (3 <= fuel')%nat -> while_loop fuel' "-" st = Ret st')
  /\ (Z.of_nat (length (tokens "6 - 3 - 2")) <= INT_MAX
      /\ forall (st' : locals) (r : float),
           run "6 - 3 - 2" 0%float = Ret (st', r) -> NoDup (applied st')).
Proof.
  intros st.
  assert (H1 : Z.of_nat (length (tokens "6 - 3 - 2")) <= INT_MAX)
    by (vm_compute; discriminate).
  split; [|split].
  - split; [exact H1|].
    apply (proj1 evaluation_terminates "6 - 3 - 2" 0%float H1).
  - split; [split; reflexivity|]. split; [discriminate|].
    split; [vm_compute; lia|].
    apply (proj1 (proj2 (proj2 (proj2 evaluation_terminates))) st "-"%char 3%nat).
    + split; reflexivity.
    + discriminate.
    + vm_compute. lia.
  - split; [exact H1|]. intros st' r.
    apply (proj2 (proj2 (proj2 (proj2 evaluation_terminates)))
             "6 - 3 - 2" 0%float st' r H1).
Defined.

(** ** Spacing *)

Lemma strchr_space (c : ascii) : strchr " " c = Ascii.eqb c " ".
Proof. cbn [strchr]. rewrite orb_false_r. apply Ascii.eqb_sym. Qed.

Lemma strtok_spaces (n : nat) (s : string) :
  strtok (spaces n ++ s) " " = strtok s " ".
Proof.
  induction n as [|n IH]; [reflexivity|].
  cbn [spaces String.append strtok]. by rewrite strchr_space, Ascii.eqb_refl.
Qed.

Lemma strtok_only_spaces (n : nat) : strtok (spaces n) " " = None.
Proof.
  induction n as [|n IH]; [reflexivity|].
  cbn [spaces strtok]. by rewrite strchr_space, Ascii.eqb_refl.
Qed.

Lemma token_end_token (t s : string) :
  strchr t " " = false -> ends_token s ->
  token_end (t ++ s) " " = (t, after_delim s).
Proof.
  intros Ht Hs. induction t as [|c t IH].
  - destruct Hs as [->|[s' ->]]; [reflexivity|].
    cbn [String.append token_end]. by rewrite strchr_space, Ascii.eqb_refl.
  - cbn [strchr] in Ht. apply orb_false_elim in Ht as [Hc Ht].
    cbn [String.append token_end]. rewrite strchr_space, Hc, (IH Ht).
    reflexivity.
Qed.

Lemma strtok_token (t s : string) :
  is_token t -> ends_token s ->
  strtok (t ++ s) " " = Some (t, after_delim s).
Proof.
  intros [Hne Ht] Hs. destruct t as [|c t]; [contradiction|].
  pose proof (token_end_token (String c t) s Ht Hs) as He.
  cbn [strchr] in Ht. apply orb_false_elim in Ht as [Hc Ht].
  cbn [String.append strtok] in *. by rewrite strchr_space, Hc, He.
Qed.

Lemma tokens_only_spaces (n m : nat) : tokens (spaces n ++ spaces m) = [].
Proof. by rewrite tokens_unfold, strtok_spaces, strtok_only_spaces. Qed.

(** The tokens of a line laid out with spaces are the tokens it was made
    of. *)
Lemma tokens_layout (ts : list string) (lead : nat) (gaps : list nat)
    (trail : nat) :
  Forall is_token ts -> tokens (layout lead ts gaps trail) = ts.
Proof.
  unfold layout. intros Hts. revert lead gaps.
  induction Hts as [|t ts Ht Hts IH]; intros lead gaps.
  - apply tokens_only_spaces.
  - rewrite tokens_unfold, strtok_spaces. cbn [join].
    destruct ts as [|t' ts].
    + rewrite strtok_token; [|exact Ht|].
      * f_equal. destruct trail as [|trail]; [reflexivity|].
        apply (tokens_only_spaces 0 trail).
      * destruct trail; [by left|right; by eexists].
    + rewrite strtok_token; [|exact Ht|right; by eexists].
      f_equal. apply IH.
Qed.

Lemma append_empty (s : string) : (s ++ "")%string = s.
Proof. induction s as [|c s IH]; simpl; [reflexivity|]. by rewrite IH. Qed.

Lemma spaces_add (n m : nat) : (spaces n ++ spaces m)%string = spaces (n + m).
Proof. induction n as [|n IH]; simpl; [reflexivity|]. by rewrite IH. Qed.

Lemma strtok_None_spaces (s : string) :
  strtok s " " = None -> exists n, s = spaces n.
Proof.
  induction s as [|c s IH]; [by exists O|].
  cbn [strtok]. rewrite strchr_space.
  destruct (Ascii.eqb_spec c " ") as [->|_]; [|discriminate].
  intros H. destruct (IH H) as [n ->]. by exists (S n).
Qed.

Lemma token_end_split (s t save : string) :
  token_end s " " = (t, save) ->
  strchr t " " = false
  /\ ((s = t /\ save = EmptyString) \/ s = (t ++ String " " save)%string).
Proof.
  revert t save. induction s as [|c s IH]; intros t save.
  - intros [= <- <-]. auto.
  - cbn [token_end]. rewrite strchr_space.
    destruct (Ascii.eqb_spec c " ") as [->|Hc].
    + intros [= <- <-]. auto.
    + destruct (token_end s " ") as [t' save'] eqn:E. intros [= <- <-].
      destruct (IH _ _ eq_refl) as [Ht Hs]. split.
      * cbn [strchr]. rewrite Ht, orb_false_r. by apply Ascii.eqb_neq.
      * destruct Hs as [[-> ->]| ->]; auto.
Qed.

Lemma strtok_Some_split (s t save : string) :
  strtok s " " = Some (t, save) ->
  is_token t
  /\ exists n,
       (s = (spaces n ++ t)%string /\ save = EmptyString)
       \/ s = (spaces n ++ t ++ String " " save)%string.
Proof.
  induction s as [|c s IH]; [discriminate|].
  cbn [strtok]. rewrite strchr_space.
  destruct (Ascii.eqb_spec c " ") as [->|Hc].
  - intros H. destruct (IH H) as [Ht [n Hs]]. split; [exact Ht|].
    exists (S n). destruct Hs as [[-> ->]| ->]; auto.
  - intros [= H]. pose proof (token_end_split (String c s) t save H) as [Ht Hs].
    split.
    + split; [|exact Ht]. intros ->.
      assert (Hsp : Ascii.eqb " " c = false) by (apply Ascii.eqb_neq; congruence).
      rewrite Hsp in H. cbn [orb] in H.
      destruct (token_end s " "). discriminate.
    + exists O. destruct Hs as [[Hs ->]|Hs]; rewrite <- Hs; auto.
Qed.

(** Conversely, every line is its tokens laid out with spaces. *)
Lemma line_is_layout (n : nat) (exp : string) :
  (String.length exp < n)%nat ->
  Forall is_token (tokens exp)
  /\ exists lead gaps trail, exp = layout lead (tokens exp) gaps trail.
Proof.
  revert exp. induction n as [|n IH]; intros exp Hn; [lia|].
  rewrite tokens_unfold.
  destruct (strtok exp " ") as [[t save]|] eqn:E.
  - pose proof (strtok_shorter _ _ _ _ E) as Hshort.
    destruct (strtok_Some_split _ _ _ E) as [Ht [lead Hs]].
    destruct (IH save ltac:(lia)) as [Hts (lead' & gaps' & trail' & Hsave)].
    split; [by constructor|].
    destruct Hs as [[-> ->]| ->].
    + exists lead, [], O. unfold layout. cbn [tokens strtok_all strtok join spaces].
      by rewrite append_empty.
    + destruct (tokens save) as [|t2 ts] eqn:Etoks.
      * exists lead, [], (S (lead' + trail')). unfold layout in *.
        cbn [join spaces] in *. by rewrite Hsave at 1; rewrite spaces_add.
      * exists lead, (lead' :: gaps'), trail'. unfold layout in *.
        cbn [join hd tl spaces String.append]. by rewrite Hsave at 1.
  - destruct (strtok_None_spaces _ E) as [k ->]. split; [constructor|].
    exists O, [], k. reflexivity.
Qed.

(** C7, amended.  [strtok] is called with the delimiter [" "]: every line
    is its tokens, none of them empty or holding a space, laid out with
    spaces, and the tokens of such a line are found whatever the number of
    spaces that lead, separate and trail.  Two lines with the same tokens
    evaluate alike.  A tab or another whitespace character is part of a
    token. *)
Theorem spaces_are_collapsed :
  (forall exp : string,
      Forall is_token (tokens exp)
      /\ exists lead gaps trail, exp = layout lead (tokens exp) gaps trail)
  /\ (forall (ts : list string) (lead lead' trail trail' : nat)
             (gaps gaps' : list nat) (result : float),
         Forall is_token ts ->
         tokens (layout lead ts gaps trail) = ts
         /\ evalExpression (layout lead ts gaps trail) result
            = evalExpression (layout lead' ts gaps' trail') result).
Proof.
  split.
  - intros exp. apply (line_is_layout (S (String.length exp))). lia.
  - intros ts lead lead' trail trail' gaps gaps' result Hts.
    split; [by apply tokens_layout|].
    by rewrite !evalExpression_tokens, !tokens_layout.
Qed.

Lemma spaces_are_collapsed_witness :
  Forall is_token ["1.5"; "+"; "2.25"]%string
  /\ tokens (layout 2 ["1.5"; "+"; "2.25"]%string [0; 3]%nat 1)
     = ["1.5"; "+"; "2.25"]%string
  /\ evalExpression (layout 2 ["1.5"; "+"; "2.25"]%string [0; 3]%nat 1) 0%float
     = evalExpression (layout 0 ["1.5"; "+"; "2.25"]%string [] 0) 0%float.
Proof.
  assert (H : Forall is_token ["1.5"; "+"; "2.25"]%string)
    by (repeat constructor; discriminate).
  split; [exact H|].
  apply (proj2 spaces_are_collapsed ["1.5"; "+"; "2.25"]%string
           2%nat 0%nat 1%nat 0%nat [0; 3]%nat [] 0%float H).
Defined.

(** C7 as stated fails: a tab is not a delimiter, so a line whose tokens
    are separated by tabs is one token and is rejected, while the same
    tokens separated by spaces evaluate to 3. *)
Lemma tab_does_not_separate :
  tokens ("1" ++ TAB ++ "+" ++ TAB ++ "2")
  = [("1" ++ TAB ++ "+" ++ TAB ++ "2")%string]
  /\ evalExpression ("1" ++ TAB ++ "+" ++ TAB ++ "2") 0%float
     = Ret (false, 0%float,
            ("Invalid operand: 1" ++ TAB ++ "+" ++ TAB ++ "2" ++ LF)%string)
  /\ evalExpression "1 + 2" 0%float = Ret (true, 3%float, EmptyString)
  /\ evalExpression ("1" ++ TAB ++ "+" ++ TAB ++ "2") 0%float
     <> evalExpression "1 + 2" 0%float.
Proof.
  split; [vm_compute; reflexivity|].
  split; [vm_compute; reflexivity|].
  split; [vm_compute; reflexivity|].
  vm_compute. discriminate.
Qed.

(** ** [validOperand] *)

(** The loop rejects any other character, and counts the decimal points
    modulo [2^32]. *)
Lemma validOperand_loop_spec (s : string) (num_dec : Z) :
  0 <= num_dec < UINT_MODULUS ->
  validOperand_loop s num_dec
  = string_forall digit_or_dot s
    && ((num_dec + Z.of_nat (count_char "." s)) mod UINT_MODULUS <=? 1).
Proof.
  revert num_dec. induction s as [|c s IH]; intros num_dec Hn.
  - cbn [validOperand_loop string_forall count_char andb].
    rewrite Z.add_0_r, Z.mod_small by exact Hn. reflexivity.
  - cbn [validOperand_loop string_forall count_char]. unfold digit_or_dot at 1.
    destruct (isdigit c) eqn:Hd; cbn [negb andb orb].
    + destruct (Ascii.eqb_spec c ".") as [->|_]; [discriminate Hd|].
      rewrite IH by exact Hn. reflexivity.
    + destruct (Ascii.eqb c "."); cbn [negb]; [|reflexivity].
      assert (0 < UINT_MODULUS) by reflexivity.
      rewrite IH by (apply Z.mod_pos_bound; assumption).
      rewrite Zplus_mod_idemp_l. do 3 f_equal. lia.
Qed.

Lemma dots_spec (n : nat) :
  string_forall digit_or_dot (dots n) = true /\ count_char "." (dots n) = n.
Proof.
  induction n as [|n [IH1 IH2]]; [by split|].
  cbn [dots string_forall count_char]. rewrite IH1, IH2. by split.
Qed.

(** X2.  For a string with fewer than [2^32] decimal points, where the
    counter is exact, [validOperand] returns true exactly when every
    character is a digit or ['.'] and there is at most one ['.']. *)
Lemma validOperand_below_wrap (s : string) :
  Z.of_nat (count_char "." s) < UINT_MODULUS ->
  validOperand s = true
  <-> string_forall digit_or_dot s = true /\ (count_char "." s <= 1)%nat.
Proof.
  intros Hlt. unfold validOperand.
  rewrite validOperand_loop_spec by (split; [lia|reflexivity]).
  rewrite Z.add_0_l, Z.mod_small by lia.
  rewrite andb_true_iff, Z.leb_le. split; intros [H1 H2]; (split; [exact H1|lia]).
Qed.

(** C6 at the failing input.  On a string of [2^32] decimal points the
    counter [num_dec] is back at 0 when the loop ends: [validOperand]
    returns true for a string with more than one ['.'].  The string ["."]
    is accepted as well. *)
Theorem validOperand_counter_wraps :
  validOperand (dots (Z.to_nat UINT_MODULUS)) = true
  /\ string_forall digit_or_dot (dots (Z.to_nat UINT_MODULUS)) = true
  /\ Z.of_nat (count_char "." (dots (Z.to_nat UINT_MODULUS))) = 2 ^ 32
  /\ validOperand "." = true.
Proof.
  destruct (dots_spec (Z.to_nat UINT_MODULUS)) as [Hall Hcount].
  assert (Hpos : 0 <= UINT_MODULUS) by discriminate.
  split; [|split; [exact Hall|split; [|reflexivity]]].
  - unfold validOperand.
    rewrite validOperand_loop_spec by (split; [lia|reflexivity]).
    rewrite Hall, Hcount, Z2Nat.id by exact Hpos.
    rewrite Z.add_0_l, Z_mod_same_full. reflexivity.
  - rewrite Hcount, Z2Nat.id by exact Hpos. reflexivity.
Qed.

(** ** Where the evaluation departs from the arithmetic *)

(** C1 at the failing inputs.  The markers of all the groups folded so far
    share the array [evaluated], so the second product of
    ["1 * 2 + 3 * 4"] overwrites the first: the sum adds 12 to 12.  And
    every [*] is applied before any [/]: ["8 / 2 * 2"] divides 8 by 4. *)
Theorem shared_markers_break_precedence (result : float) :
  evalExpression "1 * 2 + 3 * 4" result = Ret (true, 24%float, EmptyString)
  /\ Spec.standard_value "1 * 2 + 3 * 4" = Some 14%float
  /\ evalExpression "8 / 2 * 2" result = Ret (true, 2%float, EmptyString)
  /\ Spec.standard_value "8 / 2 * 2" = Some 8%float.
Proof. repeat split; vm_compute; reflexivity. Qed.

(** C3 at the failing input.  [applyOp] reports a division by zero by
    returning [DBL_MAX], and a sum can be [DBL_MAX]: the line
    [DBL_MAX_digits + 0] holds no [/] and fails with "Divide by zero
    error".  ["5 / 0"] fails with it, as it should. *)
Theorem sentinel_collides_with_result (result : float) :
  tokens (DBL_MAX_digits ++ " + 0") = [DBL_MAX_digits; "+"; "0"]%string
  /\ atof DBL_MAX_digits = DBL_MAX
  /\ evalExpression (DBL_MAX_digits ++ " + 0") result
     = Ret (false, 0%float, ("Divide by zero error" ++ LF)%string)
  /\ evalExpression "5 / 0" result
     = Ret (false, 0%float, ("Divide by zero error" ++ LF)%string).
Proof. repeat split; vm_compute; reflexivity. Qed.

(** C4 at the failing inputs.  [*result] is assigned inside the branch
    that runs when parsing and the structural check succeeded: after an
    invalid token or a missing operand it still holds what it held before
    the call, here 7.  After a division by zero it holds 0. *)
Theorem result_kept_on_early_failure :
  evalExpression "3 +" 7%float
  = Ret (false, 7%float, ("Missing last operand" ++ LF)%string)
  /\ evalExpression "3 x 4" 7%float
     = Ret (false, 7%float, ("Invalid operator: x" ++ LF)%string)
  /\ evalExpression "3a + 4" 7%float
     = Ret (false, 7%float, ("Invalid operand: 3a" ++ LF)%string)
  /\ evalExpression "5 / 0" 7%float
     = Ret (false, 0%float, ("Divide by zero error" ++ LF)%string).
Proof. repeat split; vm_compute; reflexivity. Qed.

(** ** Runs of one operator *)

Lemma shape_well_sized (k : nat) (acc : float) (ys : list float)
    (tail : list ascii) (st : locals) :
  shape k acc ys tail st -> well_sized st.
Proof.
  intros (Hops & Hopn & Hlen & es & Hev & Hes & _). unfold well_sized.
  rewrite Hops, Hopn, Hev, !length_app, !length_replicate. lia.
Qed.

Lemma find_op_head (op : ascii) (tail : list ascii) :
  find_op op (op :: tail) = Some O.
Proof. simpl. by rewrite Ascii.eqb_refl. Qed.

Lemma merge_marked (v : float) (n : nat) (xs ys : list float) :
  length xs = n ->
  merge v (replicate n true ++ replicate (length ys) false) (xs ++ ys)
  = replicate n v ++ ys.
Proof.
  intros Hn. unfold merge.
  rewrite zip_with_app by (rewrite length_replicate; lia). f_equal.
  - subst n. induction xs as [|x xs IH]; simpl; [reflexivity|]. by rewrite IH.
  - induction ys as [|y ys IH]; simpl; [reflexivity|]. by rewrite IH.
Qed.

Lemma replicate_snoc_app {A : Type} (k : nat) (x : A) (l : list A) :
  replicate k x ++ x :: l = replicate (S k) x ++ l.
Proof. by rewrite replicate_S_end, <- app_assoc. Qed.

Lemma shape_step (k : nat) (acc y : float) (ys : list float) (op : ascii)
    (tail : list ascii) (st : locals) :
  shape k acc (y :: ys) (op :: tail) st ->
  shape (S k) (applyOp acc y op) ys tail (fold_at st k (applyOp acc y op)).
Proof.
  intros (Hops & Hopn & Hlen & es & Hev & Hes & Htrue).
  assert (Hmarks : <[S k := true]> (<[k := true]> (evaluated st))
                   = replicate (S (S k)) true ++ replicate (length ys) false).
  { assert (Hes' : <[k := true]> es = replicate (S k) true).
    { destruct k as [|k].
      - destruct es as [|e [|? ?]]; try discriminate. reflexivity.
      - rewrite Htrue by discriminate. apply insert_replicate. }
    rewrite Hev.
    change (replicate (length (y :: ys)) false)
      with (false :: replicate (length ys) false).
    rewrite insert_app_l by lia.
    rewrite insert_app_r_alt by (rewrite length_insert; lia).
    rewrite length_insert, Hes, Nat.sub_diag, Hes'.
    apply replicate_snoc_app. }
  unfold shape, fold_at. cbn [operators operands evaluated].
  injection Hlen as Hlen.
  repeat split.
  - rewrite Hops, insert_app_r_alt by (rewrite length_replicate; lia).
    rewrite length_replicate, Nat.sub_diag. apply replicate_snoc_app.
  - rewrite Hmarks, Hopn, (cons_middle y), app_assoc.
    apply merge_marked. rewrite length_app, length_replicate. simpl. lia.
  - exact Hlen.
  - exists (replicate (S (S k)) true). split; [exact Hmarks|].
    split; [by rewrite length_replicate|reflexivity].
Qed.

Lemma shape_lookup (k : nat) (acc y : float) (ys : list float) (tail : list ascii)
    (st : locals) :
  shape k acc (y :: ys) tail st ->
  operands st !! k = Some acc /\ operands st !! S k = Some y.
Proof.
  intros (_ & Hopn & _). rewrite Hopn. split.
  - rewrite lookup_app_l by (rewrite length_replicate; lia).
    apply lookup_replicate_2. lia.
  - rewrite lookup_app_r by (rewrite length_replicate; lia).
    rewrite length_replicate, Nat.sub_diag. reflexivity.
Qed.

(** A pass for the symbol [op], which is not the sentinel, over a run of
    [op] that is followed by operators other than [op]. *)
Section Run.

Variable op : ascii.
Hypothesis op_not_NUL : op <> NUL.

Variable tail : list ascii.
Hypothesis tail_without_op : find_op op tail = None.

Lemma find_op_cleared (k : nat) (rest : list ascii) :
  find_op op (replicate k NUL ++ rest)
  = (fun i => (k + i)%nat) <$> find_op op rest.
Proof.
  induction k as [|k IH]; simpl.
  - by destruct (find_op op rest).
  - destruct (Ascii.eqb_spec NUL op); [congruence|].
    rewrite IH. by destruct (find_op op rest).
Qed.

(** The pass folds the run left to right. *)
Lemma pass_folds_run (ys2 ys1 : list float) (k : nat) (acc : float)
    (st : locals) (fuel : nat) :
  shape k acc (ys1 ++ ys2) (replicate (length ys1) op ++ tail) st ->
  run_clean op acc ys1 = true -> (length ys1 < fuel)%nat ->
  exists st',
    while_loop fuel op st = Ret st'
    /\ shape (k + length ys1) (code_fold op acc ys1) ys2 tail st'
    /\ error_occurred st' = error_occurred st
    /\ stdout st' = stdout st.
Proof.
  revert k acc st fuel.
  induction ys1 as [|y ys1 IH]; intros k acc st fuel Hsh Hclean Hfuel.
  - destruct fuel as [|fuel]; [simpl in Hfuel; lia|].
    simpl in Hsh. exists st. rewrite Nat.add_0_r. split; [|auto].
    apply while_loop_done. destruct Hsh as (-> & _).
    by rewrite find_op_cleared, tail_without_op.
  - destruct fuel as [|fuel]; [simpl in Hfuel; lia|].
    simpl in Hsh, Hclean, Hfuel.
    apply andb_prop in Hclean as [Hne Hclean].
    apply negb_true_iff in Hne.
    pose proof (shape_well_sized _ _ _ _ _ Hsh) as Hws.
    assert (Hfind : find_op op (operators st) = Some k).
    { destruct Hsh as (-> & _). rewrite find_op_cleared, find_op_head.
      simpl. f_equal. lia. }
    destruct (while_loop_apply fuel op st k Hws Hfind) as (a & b & Ha & Hb & ->).
    destruct (shape_lookup _ _ _ _ _ _ Hsh) as [Ha' Hb'].
    assert (a = acc) by congruence. assert (b = y) by congruence. subst a b.
    rewrite Hne.
    destruct (IH (S k) (applyOp acc y op) _ fuel (shape_step _ _ _ _ _ _ _ Hsh)
                Hclean ltac:(lia))
      as (st' & Hrun & Hsh' & He & Ho).
    exists st'. split; [exact Hrun|].
    split; [|auto].
    simpl length.
    replace (k + S (length ys1))%nat with (S k + length ys1)%nat by lia.
    exact Hsh'.
Qed.

End Run.

(** ** Sums and differences *)

Lemma sentinel_free_run (op : ascii) (acc : float) (ys : list float)
    (rest : list (ascii * float)) :
  sentinel_free acc (map (pair op) ys ++ rest)
  = run_clean op acc ys && sentinel_free (code_fold op acc ys) rest.
Proof.
  revert acc. induction ys as [|y ys IH]; intros acc; [reflexivity|].
  simpl. rewrite IH. by rewrite andb_assoc.
Qed.

Lemma map_fst_pair (op : ascii) (ys : list float) :
  map fst (map (pair op) ys) = replicate (length ys) op.
Proof. induction ys as [|y ys IH]; simpl; [reflexivity|]. by rewrite IH. Qed.

Lemma map_snd_pair (op : ascii) (ys : list float) :
  map snd (map (pair op) ys) = ys.
Proof. induction ys as [|y ys IH]; simpl; [reflexivity|]. by rewrite IH. Qed.

Lemma find_op_replicate (op c : ascii) (n : nat) (tail : list ascii) :
  c <> op -> find_op op (replicate n c ++ tail)
             = (fun i => (n + i)%nat) <$> find_op op tail.
Proof.
  intros Hc. induction n as [|n IH]; simpl.
  - by destruct (find_op op tail).
  - destruct (Ascii.eqb_spec c op); [congruence|].
    rewrite IH. by destruct (find_op op tail).
Qed.

(** The arrays the parsing loop builds from a valid expression. *)
Lemma pairs_parse (toks : list string) (rest : list (ascii * float)) :
  Spec.pairs toks = Some rest ->
  operands_of false toks = map snd rest
  /\ operators_of false toks = map fst rest.
Proof.
  revert toks. induction rest as [|[o v] rest IH]; intros toks.
  - destruct toks as [|op [|y toks]]; simpl; try discriminate; [auto|].
    destruct (Spec.pairs toks); discriminate.
  - destruct toks as [|op [|y toks]]; simpl; try discriminate.
    destruct (Spec.pairs toks) as [rest'|] eqn:E; [|discriminate].
    intros [= <- <- <-]. destruct (IH _ E) as [-> ->]. auto.
Qed.

Lemma expression_parse (exp : string) (x : float) (rest : list (ascii * float)) :
  Spec.expression exp = Some (x, rest) ->
  parse_tokens (tokens exp) true init
  = Locals (x :: map snd rest) (map fst rest) [] false EmptyString [].
Proof.
  unfold Spec.expression.
  destruct (tokens exp) as [|t toks]; [discriminate|].
  destruct (all_valid true (t :: toks)) eqn:Hv; [|discriminate].
  destruct (Spec.pairs toks) as [rest'|] eqn:E; [|discriminate].
  intros [= <- <-]. rewrite parse_tokens_valid by exact Hv.
  destruct (pairs_parse _ _ E) as [H1 H2]. simpl. by rewrite H1, H2.
Qed.

Lemma expression_ready (x : float) (rest : list (ascii * float)) :
  calloc_evaluated
    (check_last_operand
       (Locals (x :: map snd rest) (map fst rest) [] false EmptyString []))
  = Locals (x :: map snd rest) (map fst rest)
      (replicate (S (length rest)) false) false EmptyString [].
Proof.
  unfold check_last_operand, calloc_evaluated, num_operands, num_operators.
  cbn [operands operators error_occurred stdout applied evaluated negb andb].
  cbn [length]. rewrite !length_map.
  replace (Z.of_nat (S (length rest)) - Z.of_nat (length rest) =? 1) with true
    by (symmetry; apply Z.eqb_eq; lia).
  cbn [negb operands operators error_occurred stdout applied length].
  rewrite length_map, Nat2Z.id. reflexivity.
Qed.

(** C2 at the failing inputs.  In ["10 - 3 + 2"] the pass for [+] runs
    before the pass for [-]: the result is 10 - 5, the fold gives 9.  In
    ["1 + 2 - 3 + 4"] the two sums are moreover merged into one group: the
    result is 7 - 7, the fold gives 4.  And the sum [DBL_MAX + 0] is taken
    for a division by zero. *)
Lemma additive_mixture_not_left_to_right :
  evalExpression "10 - 3 + 2" 0%float = Ret (true, 5%float, EmptyString)
  /\ Spec.left_to_right_value "10 - 3 + 2" = Some 9%float
  /\ evalExpression "1 + 2 - 3 + 4" 0%float = Ret (true, 0%float, EmptyString)
  /\ Spec.left_to_right_value "1 + 2 - 3 + 4" = Some 4%float
  /\ evalExpression (DBL_MAX_digits ++ " + 0") 0%float
     = Ret (false, 0%float, ("Divide by zero error" ++ LF)%string)
  /\ Spec.left_to_right_value (DBL_MAX_digits ++ " + 0") = Some DBL_MAX.
Proof. repeat split; vm_compute; reflexivity. Qed.

(** ** Failures *)

(** A division whose divisor is below [DBL_EPSILON] in absolute value ends
    the evaluation at once. *)
Lemma small_divisor_aborts (fuel : nat) (st : locals) (i : nat) (a b : float) :
  well_sized st -> find_op "/" (operators st) = Some i ->
  operands st !! i = Some a -> operands st !! S i = Some b ->
  (fabs b <? DBL_EPSILON)%float = true ->
  while_loop (S fuel) "/" st = Ret (abort st i).
Proof.
  intros Hws Hi Ha Hb Hsmall.
  destruct (while_loop_apply fuel "/" st i Hws Hi) as (a' & b' & Ha' & Hb' & ->).
  assert (a' = a) by congruence. assert (b' = b) by congruence. subst a' b'.
  assert (Hmax : applyOp a b "/" = DBL_MAX).
  { unfold applyOp. rewrite Hsmall. reflexivity. }
  rewrite Hmax. reflexivity.
Qed.

(** After an invalid token or a missing operand [*result] is what it was. *)
Lemma early_failure_keeps_result (exp : string) (result : float) :
  let checked := check_last_operand (parse_tokens (tokens exp) true init) in
  error_occurred checked = true ->
  evalExpression exp result = Ret (false, result, stdout checked).
Proof.
  intros checked He. rewrite evalExpression_tokens. fold checked.
  rewrite evaluate_failed by exact He. cbn [bind fst snd].
  unfold calloc_evaluated. cbn [error_occurred stdout]. by rewrite He.
Qed.

(** * Further properties of the code *)

(** ** [validOperator] and [indexOfOp] *)

(** X1.  [validOperator] accepts exactly the four strings ["+"], ["-"],
    ["*"] and ["/"]: the empty string, a longer string that holds an
    operator, and any other single character are rejected. *)
Theorem validOperator_iff (str : string) :
  validOperator str = true
  <-> str = "+"%string \/ str = "-"%string \/ str = "*"%string \/ str = "/"%string.
Proof.
  unfold validOperator, strlen.
  destruct str as [|c [|d s]].
  - split; [discriminate|]. intros [H|[H|[H|H]]]; discriminate.
  - cbn [String.length strpbrk strchr]. rewrite !orb_false_r.
    change (Z.of_nat 1 =? 1) with true. cbn [andb].
    rewrite !orb_true_iff.
    split.
    + intros [H|[H|[H|H]]]; apply Ascii.eqb_eq in H; subst c; auto.
    + intros [H|[H|[H|H]]]; injection H as <-; rewrite Ascii.eqb_refl; auto.
  - replace (Z.of_nat (String.length (String c (String d s))) =? 1) with false
      by (symmetry; apply Z.eqb_neq; cbn [String.length]; lia).
    split; [discriminate|]. intros [H|[H|[H|H]]]; discriminate.
Qed.

Lemma indexOfOp_from_first (n : nat) (operators : list ascii) (op : ascii)
    (i : nat) :
  (i + n <= length operators)%nat ->
  exists r,
    indexOfOp_from n operators op (Z.of_nat i) = Ret r
    /\ ((r = -1
         /\ forall k, (i <= k < i + n)%nat -> operators !! k <> Some op)
        \/ exists j,
             r = Z.of_nat j /\ (i <= j < i + n)%nat
             /\ operators !! j = Some op
             /\ forall k, (i <= k < j)%nat -> operators !! k <> Some op).
Proof.
  revert i. induction n as [|n IH]; intros i Hlen.
  - exists (-1). split; [reflexivity|]. left. split; [reflexivity|]. intros k Hk. lia.
  - destruct (lookup_lt_is_Some_2 operators i) as [c Hc]; [lia|].
    cbn [indexOfOp_from]. rewrite (load_lookup _ _ _ Hc). cbn [bind].
    destruct (Ascii.eqb_spec c op) as [->|Hne].
    + exists (Z.of_nat i). split; [reflexivity|]. right.
      exists i. split; [reflexivity|]. split; [lia|]. split; [exact Hc|].
      intros k Hk. lia.
    + replace (Z.of_nat i + 1) with (Z.of_nat (S i)) by lia.
      destruct (IH (S i) ltac:(lia)) as (r & Hr & Hcases).
      exists r. split; [exact Hr|].
      assert (Hi : operators !! i <> Some op) by congruence.
      destruct Hcases as [[-> Hnone]|(j & -> & Hj & Hop & Hfirst)].
      * left. split; [reflexivity|]. intros k Hk.
        destruct (decide (k = i)) as [->|Hki]; [exact Hi|]. apply Hnone. lia.
      * right. exists j. split; [reflexivity|]. split; [lia|].
        split; [exact Hop|]. intros k Hk.
        destruct (decide (k = i)) as [->|Hki]; [exact Hi|]. apply Hfirst. lia.
Qed.

(** X3.  Searching the first [num_operators] slots of an array that has
    at least that many, [indexOfOp] reads inside the array and returns the
    first slot that holds [op], or [-1] when none of them does.  With
    [num_operators <= 0] it reads nothing and returns [-1]. *)
Theorem indexOfOp_first_occurrence :
  (forall (operators : list ascii) (op : ascii) (n : nat),
      (n <= length operators)%nat ->
      exists i,
        indexOfOp operators op (Z.of_nat n) = Ret i
        /\ ((i = -1 /\ forall k, (k < n)%nat -> operators !! k <> Some op)
            \/ (0 <= i < Z.of_nat n
                /\ operators !! Z.to_nat i = Some op
                /\ forall k, (k < Z.to_nat i)%nat -> operators !! k <> Some op)))
  /\ (forall (operators : list ascii) (op : ascii) (num_operators : Z),
         num_operators <= 0 -> indexOfOp operators op num_operators = Ret (-1)).
Proof.
  split.
  - intros operators op n Hn. unfold indexOfOp. rewrite Nat2Z.id.
    destruct (indexOfOp_from_first n operators op O ltac:(lia))
      as (r & Hr & Hcases).
    exists r. split; [exact Hr|].
    destruct Hcases as [[-> Hnone]|(j & -> & Hj & Hop & Hfirst)].
    + left. split; [reflexivity|]. intros k Hk. apply Hnone. lia.
    + right. rewrite Nat2Z.id. split; [lia|]. split; [exact Hop|].
      intros k Hk. apply Hfirst. lia.
  - intros operators op z Hz. unfold indexOfOp.
    replace (Z.to_nat z) with O by lia. reflexivity.
Qed.

Lemma indexOfOp_first_occurrence_witness :
  (3 <= length ["+"; "*"; "+"; "*"]%char)%nat
  /\ exists i,
       indexOfOp ["+"; "*"; "+"; "*"]%char "*" (Z.of_nat 3) = Ret i
       /\ ((i = -1
            /\ forall k, (k < 3)%nat -> ["+"; "*"; "+"; "*"]%char !! k <> Some "*"%char)
           \/ (0 <= i < Z.of_nat 3
               /\ ["+"; "*"; "+"; "*"]%char !! Z.to_nat i = Some "*"%char
               /\ forall k, (k < Z.to_nat i)%nat ->
                    ["+"; "*"; "+"; "*"]%char !! k <> Some "*"%char)).
Proof.
  split; [simpl; lia|].
  apply (proj1 indexOfOp_first_occurrence ["+"; "*"; "+"; "*"]%char "*"%char 3%nat).
  simpl. lia.
Defined.

Lemma validOperand_below_wrap_witness :
  Z.of_nat (count_char "." "3.14") < UINT_MODULUS
  /\ (validOperand "3.14" = true
      <-> string_forall digit_or_dot "3.14" = true
          /\ (count_char "." "3.14" <= 1)%nat).
Proof.
  split; [reflexivity|].
  apply (validOperand_below_wrap "3.14"). reflexivity.
Defined.

(** ** The outcomes of [evalExpression] *)




(** ** Joining lines *)

Lemma append_assoc (a b c : string) :
  ((a ++ b) ++ c)%string = (a ++ b ++ c)%string.
Proof. induction a as [|x a IH]; simpl; [reflexivity|]. by rewrite IH. Qed.

Lemma tokens_join (n : nat) (s1 s2 : string) :
  (String.length s1 < n)%nat ->
  tokens (s1 ++ " " ++ s2) = tokens s1 ++ tokens s2.
Proof.
  revert s1. induction n as [|n IH]; intros s1 Hn; [lia|].
  rewrite (tokens_unfold s1).
  destruct (strtok s1 " ") as [[t save]|] eqn:E.
  - pose proof (strtok_shorter _ _ _ _ E) as Hshort.
    destruct (strtok_Some_split _ _ _ E) as [Ht [k Hs]].
    destruct Hs as [[-> ->]| ->].
    + rewrite !append_assoc, tokens_unfold, strtok_spaces.
      rewrite strtok_token; [|exact Ht|right; by eexists].
      reflexivity.
    + rewrite !append_assoc, tokens_unfold, strtok_spaces.
      change (String " " save ++ " " ++ s2)%string
        with (String " " (save ++ " " ++ s2))%string.
      rewrite strtok_token; [|exact Ht|right; by eexists].
      cbn [after_delim app]. f_equal. apply IH. lia.
  - destruct (strtok_None_spaces _ E) as [k ->].
    change (spaces k ++ " " ++ s2)%string with (spaces k ++ spaces 1 ++ s2)%string.
    rewrite tokens_unfold, !strtok_spaces, <- tokens_unfold. reflexivity.
Qed.

(** X5.  The tokens of two lines joined by a space are the tokens of the
    first followed by the tokens of the second: no token is split, merged
    or lost at the seam. *)
Theorem tokens_of_joined_lines (s1 s2 : string) :
  tokens (s1 ++ " " ++ s2) = tokens s1 ++ tokens s2.
Proof. apply (tokens_join (S (String.length s1))). lia. Qed.

(** ** Expressions ordered like [order_of_ops] *)

Section RunAborts.

Variable op : ascii.
Hypothesis op_not_NUL : op <> NUL.

(** A pass over a run in which some operation returns the sentinel stops
    there with the error flag set. *)
Lemma pass_aborts_run (tail : list ascii) (ys2 ys1 : list float) (k : nat)
    (acc : float) (st : locals) (fuel : nat) :
  shape k acc (ys1 ++ ys2) (replicate (length ys1) op ++ tail) st ->
  run_clean op acc ys1 = false -> (length ys1 < fuel)%nat ->
  exists st',
    while_loop fuel op st = Ret st'
    /\ error_occurred st' = true
    /\ stdout st' = (stdout st ++ "Divide by zero error" ++ LF)%string.
Proof.
  revert k acc st fuel.
  induction ys1 as [|y ys1 IH]; intros k acc st fuel Hsh Hclean Hfuel;
    [discriminate|].
  destruct fuel as [|fuel]; [simpl in Hfuel; lia|].
  simpl in Hsh, Hclean, Hfuel.
  pose proof (shape_well_sized _ _ _ _ _ Hsh) as Hws.
  assert (Hfind : find_op op (operators st) = Some k).
  { destruct Hsh as (-> & _).
    rewrite (find_op_cleared op op_not_NUL), find_op_head.
    simpl. f_equal. lia. }
  destruct (while_loop_apply fuel op st k Hws Hfind) as (a & b & Ha & Hb & ->).
  destruct (shape_lookup _ _ _ _ _ _ Hsh) as [Ha' Hb'].
  assert (a = acc) by congruence. assert (b = y) by congruence. subst a b.
  destruct (applyOp acc y op =? DBL_MAX)%float eqn:Hmax.
  - exists (abort st k). auto.
  - cbn [negb andb] in Hclean.
    destruct (IH (S k) (applyOp acc y op) _ fuel (shape_step _ _ _ _ _ _ _ Hsh)
                Hclean ltac:(lia))
      as (st' & Hrun & He & Ho).
    exists st'. auto.
Qed.

End RunAborts.

Lemma find_op_runs (op : ascii) (runs : list (ascii * list float)) :
  Forall (fun r => fst r <> op) runs -> find_op op (runs_operators runs) = None.
Proof.
  induction 1 as [|[o ys] runs Ho _ IH]; [reflexivity|].
  cbn [runs_operators flat_map fst snd]. fold (runs_operators runs).
  rewrite find_op_replicate by exact Ho. by rewrite IH.
Qed.

Lemma length_runs (runs : list (ascii * list float)) :
  length (runs_operands runs) = length (runs_operators runs).
Proof.
  induction runs as [|[o ys] runs IH]; [reflexivity|].
  cbn [runs_operands runs_operators flat_map fst snd].
  rewrite !length_app, length_replicate. unfold runs_operands, runs_operators in IH.
  by rewrite IH.
Qed.

Lemma sentinel_free_runs (acc : float) (o : ascii) (ys : list float)
    (runs : list (ascii * list float)) :
  sentinel_free acc (runs_pairs ((o, ys) :: runs))
  = run_clean o acc ys && sentinel_free (code_fold o acc ys) (runs_pairs runs).
Proof. apply sentinel_free_run. Qed.

(** The passes over an expression whose runs are ordered like the passes:
    each pass folds its run, and the first operation that returns the
    sentinel ends the evaluation. *)
Lemma for_ops_ordered (runs : list (ascii * list float)) (k : nat)
    (acc : float) (st : locals) :
  NoDup (map fst runs) -> Forall (fun r => fst r <> NUL) runs ->
  shape k acc (runs_operands runs) (runs_operators runs) st ->
  error_occurred st = false ->
  exists st',
    for_ops (map fst runs) st = Ret st'
    /\ if sentinel_free acc (runs_pairs runs)
       then error_occurred st' = false /\ stdout st' = stdout st
            /\ operands st' !! O = Some (runs_fold acc runs)
       else error_occurred st' = true
            /\ stdout st' = (stdout st ++ "Divide by zero error" ++ LF)%string.
Proof.
  revert k acc st. induction runs as [|[o ys] runs IH]; intros k acc st Hnd Hnul Hsh He.
  - exists st. split; [reflexivity|]. cbn. split; [exact He|]. split; [reflexivity|].
    destruct Hsh as (_ & -> & _). reflexivity.
  - apply NoDup_cons in Hnd as [Hnotin Hnd].
    apply Forall_cons in Hnul as [Ho Hnul]. cbn [fst] in Ho.
    assert (Hothers : Forall (fun r => fst r <> o) runs).
    { apply Forall_forall. intros r Hr Heq. apply Hnotin.
      apply list_elem_of_fmap. exists r. auto. }
    pose proof (find_op_runs o runs Hothers) as Htail.
    cbn [runs_operands runs_operators flat_map fst snd] in Hsh.
    fold (runs_operands runs) (runs_operators runs) in Hsh.
    assert (Hfuel : (length ys < S (length (operators st)))%nat).
    { destruct Hsh as (-> & _). rewrite !length_app, !length_replicate. lia. }
    rewrite sentinel_free_runs. cbn [map fst for_ops].
    destruct (run_clean o acc ys) eqn:Hclean.
    + destruct (pass_folds_run o Ho _ Htail _ _ _ _ _ _ Hsh Hclean Hfuel)
        as (st1 & -> & Hsh1 & He1 & Ho1).
      cbn [bind andb]. rewrite He1, He.
      destruct (IH _ _ st1 Hnd Hnul Hsh1 ltac:(congruence)) as (st' & Hfor & Hres).
      exists st'. split; [exact Hfor|]. cbn [runs_fold fold_left fst snd].
      fold (runs_fold (code_fold o acc ys) runs).
      destruct (sentinel_free (code_fold o acc ys) (runs_pairs runs)).
      * destruct Hres as (? & ? & ?). repeat split; congruence.
      * destruct Hres as (? & ?). split; congruence.
    + destruct (pass_aborts_run o Ho _ _ _ _ _ _ _ Hsh Hclean Hfuel)
        as (st1 & -> & He1 & Ho1).
      cbn [bind andb]. rewrite He1. exists st1. auto.
Qed.

Lemma runs_pairs_fst (runs : list (ascii * list float)) :
  map fst (runs_pairs runs) = runs_operators runs.
Proof.
  induction runs as [|[o ys] runs IH]; [reflexivity|].
  cbn [runs_pairs runs_operators flat_map fst snd].
  rewrite map_app, map_fst_pair. unfold runs_pairs, runs_operators in IH.
  by rewrite IH.
Qed.

Lemma runs_pairs_snd (runs : list (ascii * list float)) :
  map snd (runs_pairs runs) = runs_operands runs.
Proof.
  induction runs as [|[o ys] runs IH]; [reflexivity|].
  cbn [runs_pairs runs_operands flat_map fst snd].
  rewrite map_app, map_snd_pair. unfold runs_pairs, runs_operands in IH.
  by rewrite IH.
Qed.

(** An expression whose runs are ordered like the passes: it fails at the
    first operation that returns the sentinel, and evaluates to the fold
    of its runs otherwise. *)
Lemma ordered_expression_eval (exp : string) (result x : float)
    (ms ds ps ss : list float) :
  Spec.expression exp = Some (x, runs_pairs (ordered_runs ms ds ps ss)) ->
  evalExpression exp result
  = if sentinel_free x (runs_pairs (ordered_runs ms ds ps ss))
    then Ret (true, runs_fold x (ordered_runs ms ds ps ss), EmptyString)
    else Ret (false, 0%float, ("Divide by zero error" ++ LF)%string).
Proof.
  intros Hexp. set (runs := ordered_runs ms ds ps ss) in *.
  rewrite evalExpression_tokens, (expression_parse _ _ _ Hexp), expression_ready.
  set (st0 := Locals _ _ _ _ _ _).
  assert (Hsh : shape 0 x (runs_operands runs) (runs_operators runs) st0).
  { unfold shape, st0. cbn [operators operands evaluated].
    rewrite runs_pairs_fst, runs_pairs_snd. repeat split.
    - apply length_runs.
    - exists [false]. split.
      + by rewrite <- runs_pairs_snd, length_map.
      + split; [reflexivity|]. intros []; reflexivity. }
  assert (Hnd : NoDup (map fst runs)).
  { unfold runs, ordered_runs. cbn [map fst].
    repeat (apply NoDup_cons_2;
            [intros H;
             repeat (apply elem_of_cons in H as [H|H]; [discriminate|]);
             by apply elem_of_nil in H|]).
    apply NoDup_nil_2. }
  assert (Hnul : Forall (fun r => fst r <> NUL) runs).
  { unfold runs, ordered_runs. repeat constructor; discriminate. }
  destruct (for_ops_ordered runs 0 x st0 Hnd Hnul Hsh eq_refl)
    as (st' & Hfor & Hres).
  unfold evaluate. cbn [error_occurred st0 negb]. fold st0.
  change order_of_ops with (map fst runs). rewrite Hfor. cbn [bind].
  destruct (sentinel_free x (runs_pairs runs)).
  - destruct Hres as (He & Ho & Hr). rewrite He.
    pose proof (load_lookup _ O _ Hr) as Hload.
    change (Z.of_nat 0) with 0 in Hload. rewrite Hload.
    cbn [bind fst snd]. by rewrite He, Ho.
  - destruct Hres as (He & Ho). rewrite He. cbn [bind fst snd].
    by rewrite He, Ho.
Qed.

(** Where no operation returns the sentinel, [applyOp] is the arithmetic
    operation. *)
Lemma applyOp_arith (op : ascii) (a b : float) :
  In op order_of_ops ->
  (applyOp a b op =? DBL_MAX)%float = false ->
  applyOp a b op = Spec.arith op a b.
Proof.
  unfold order_of_ops. intros [<-|[<-|[<-|[<-|[]]]]]; try reflexivity.
  unfold applyOp, Spec.arith.
  change (Ascii.eqb "/" "+") with false. change (Ascii.eqb "/" "-") with false.
  change (Ascii.eqb "/" "*") with false. change (Ascii.eqb "/" "/") with true.
  cbv iota. destruct (fabs b <? DBL_EPSILON)%float; [|reflexivity].
  intros H. vm_compute in H. discriminate.
Qed.

Lemma runs_fold_pairs (runs : list (ascii * list float)) (acc : float) :
  runs_fold acc runs
  = fold_left (fun a oy => applyOp a (snd oy) (fst oy)) (runs_pairs runs) acc.
Proof.
  revert acc. induction runs as [|[o ys] runs IH]; intros acc; [reflexivity|].
  cbn [runs_fold fold_left runs_pairs flat_map fst snd].
  fold (runs_fold (code_fold o acc ys) runs) (runs_pairs runs).
  rewrite fold_left_app, IH. f_equal.
  unfold code_fold. clear IH. revert acc.
  induction ys as [|y ys IHy]; intros acc; [reflexivity|]. simpl. apply IHy.
Qed.

Lemma left_fold_clean (rest : list (ascii * float)) (acc : float) :
  Forall (fun oy => In (fst oy) order_of_ops) rest ->
  sentinel_free acc rest = true ->
  fold_left (fun a oy => applyOp a (snd oy) (fst oy)) rest acc
  = Spec.left_fold acc rest.
Proof.
  intros Hops. revert acc. induction Hops as [|[o y] rest Ho _ IH]; intros acc;
    [reflexivity|].
  cbn [sentinel_free fold_left fst snd]. intros [Hne Hfree]%andb_prop.
  apply negb_true_iff in Hne. unfold Spec.left_fold in *. cbn [fold_left fst snd].
  rewrite <- (applyOp_arith o acc y Ho Hne). by apply IH.
Qed.

Lemma first_tier_products (o : ascii) (ys : list float)
    (rest : list (ascii * float)) (x : float) :
  Spec.multiplicative o = true ->
  Spec.first_tier x (map (pair o) ys ++ rest)
  = Spec.first_tier (Spec.left_fold x (map (pair o) ys)) rest.
Proof.
  intros Ho. revert x. induction ys as [|y ys IH]; intros x; [reflexivity|].
  cbn [map app Spec.first_tier]. rewrite Ho, IH. reflexivity.
Qed.

Lemma first_tier_sums (rest : list (ascii * float)) (x : float) :
  Forall (fun oy => Spec.multiplicative (fst oy) = false) rest ->
  Spec.first_tier x rest = (x, rest).
Proof.
  intros Hadd. revert x. induction Hadd as [|[o y] rest Ho _ IH]; intros x;
    [reflexivity|].
  cbn [Spec.first_tier]. cbn [fst] in Ho. by rewrite Ho, IH.
Qed.

(** On an ordered expression the two tiers are one fold. *)
Lemma two_tier_ordered (x : float) (ms ds ps ss : list float) :
  Spec.two_tier x (runs_pairs (ordered_runs ms ds ps ss))
  = Spec.left_fold x (runs_pairs (ordered_runs ms ds ps ss)).
Proof.
  unfold Spec.two_tier, ordered_runs, runs_pairs. cbn [flat_map fst snd].
  rewrite app_nil_r.
  rewrite first_tier_products by reflexivity.
  rewrite first_tier_products by reflexivity.
  rewrite first_tier_sums.
  - unfold Spec.left_fold. by rewrite !fold_left_app.
  - apply Forall_app. split; apply Forall_forall; intros oy Hin;
      apply list_elem_of_In, in_map_iff in Hin as (y & <- & _); reflexivity.
Qed.

Lemma ordered_operators (ms ds ps ss : list float) :
  Forall (fun oy => In (fst oy) order_of_ops)
    (runs_pairs (ordered_runs ms ds ps ss)).
Proof.
  unfold ordered_runs, runs_pairs, order_of_ops. cbn [flat_map fst snd].
  rewrite app_nil_r.
  repeat (apply Forall_app; split);
    apply Forall_forall; intros oy Hin;
    apply list_elem_of_In, in_map_iff in Hin as (y & <- & _); cbn [fst In]; auto.
Qed.

(** X6.  An expression of at most [INT_MAX] tokens whose operators stand
    in the order of the passes (every [*] left of every [/], these left
    of every [+], these left of every [-]) evaluates to its value under the standard precedence when
    no operation returns the sentinel [DBL_MAX], and fails with "Divide by
    zero error", storing 0, as soon as one does. *)
Theorem ordered_expression_value (exp : string) (result x : float)
    (ms ds ps ss : list float) :
  Z.of_nat (length (tokens exp)) <= INT_MAX ->
  Spec.expression exp = Some (x, runs_pairs (ordered_runs ms ds ps ss)) ->
  (sentinel_free x (runs_pairs (ordered_runs ms ds ps ss)) = true ->
   evalExpression exp result
   = Ret (true, Spec.two_tier x (runs_pairs (ordered_runs ms ds ps ss)),
          EmptyString))
  /\ (sentinel_free x (runs_pairs (ordered_runs ms ds ps ss)) = false ->
      evalExpression exp result
      = Ret (false, 0%float, ("Divide by zero error" ++ LF)%string)).
Proof.
  intros _ Hexp. rewrite (ordered_expression_eval _ result _ _ _ _ _ Hexp).
  split; intros Hfree; rewrite Hfree; [|reflexivity].
  rewrite two_tier_ordered, runs_fold_pairs.
  rewrite left_fold_clean; [reflexivity|apply ordered_operators|exact Hfree].
Qed.

Lemma ordered_expression_value_witness :
  Z.of_nat (length (tokens "2 * 3 / 4 + 5 - 1.5")) <= INT_MAX
  /\ Spec.expression "2 * 3 / 4 + 5 - 1.5"
  = Some (2%float, runs_pairs (ordered_runs [3%float] [4%float] [5%float] [1.5%float]))
  /\ sentinel_free 2%float
       (runs_pairs (ordered_runs [3%float] [4%float] [5%float] [1.5%float]))
     = true
  /\ evalExpression "2 * 3 / 4 + 5 - 1.5" 0%float
     = Ret (true,
            Spec.two_tier 2%float
              (runs_pairs (ordered_runs [3%float] [4%float] [5%float] [1.5%float])),
            EmptyString).
Proof.
  assert (H1 : Z.of_nat (length (tokens "2 * 3 / 4 + 5 - 1.5")) <= INT_MAX)
    by (vm_compute; discriminate).
  split; [exact H1|].
  split; [vm_compute; reflexivity|]. split; [vm_compute; reflexivity|].
  apply (ordered_expression_value "2 * 3 / 4 + 5 - 1.5" 0%float 2%float
           [3%float] [4%float] [5%float] [1.5%float] H1);
    vm_compute; reflexivity.
Defined.

Lemma small_divisor_sentinel (rest : list (ascii * float)) (y acc : float) :
  In ("/"%char, y) rest -> (fabs y <? DBL_EPSILON)%float = true ->
  sentinel_free acc rest = false.
Proof.
  intros Hin Hsmall. revert acc. induction rest as [|[o z] rest IH]; intros acc;
    [contradiction|].
  cbn [sentinel_free]. destruct Hin as [[= -> ->]|Hin].
  - assert (Hmax : applyOp acc y "/" = DBL_MAX).
    { unfold applyOp. by rewrite Hsmall. }
    by rewrite Hmax.
  - rewrite (IH Hin). apply andb_false_r.
Qed.

(** X7.  An expression of at most [INT_MAX] tokens whose operators stand
    in the order of the passes and that divides by an operand below [DBL_EPSILON] in absolute value
    fails with "Divide by zero error": [evalExpression] returns false and
    stores 0. *)
Theorem ordered_expression_small_divisor (exp : string) (result x y : float)
    (ms ds ps ss : list float) :
  Z.of_nat (length (tokens exp)) <= INT_MAX ->
  Spec.expression exp = Some (x, runs_pairs (ordered_runs ms ds ps ss)) ->
  In y ds -> (fabs y <? DBL_EPSILON)%float = true ->
  evalExpression exp result
  = Ret (false, 0%float, ("Divide by zero error" ++ LF)%string).
Proof.
  intros _ Hexp Hin Hsmall.
  rewrite (ordered_expression_eval _ result _ _ _ _ _ Hexp).
  rewrite (small_divisor_sentinel _ y); [reflexivity| |exact Hsmall].
  unfold ordered_runs, runs_pairs. cbn [flat_map fst snd].
  apply in_or_app. right. apply in_or_app. left.
  apply in_map_iff. exists y. auto.
Qed.

Lemma ordered_expression_small_divisor_witness :
  Z.of_nat (length (tokens "3 * 2 / 0.0000000000000001 + 1")) <= INT_MAX
  /\ Spec.expression "3 * 2 / 0.0000000000000001 + 1"
  = Some (3%float,
          runs_pairs (ordered_runs [2%float] [atof "0.0000000000000001"]
                        [1%float] []))
  /\ In (atof "0.0000000000000001") [atof "0.0000000000000001"]
  /\ (fabs (atof "0.0000000000000001") <? DBL_EPSILON)%float = true
  /\ evalExpression "3 * 2 / 0.0000000000000001 + 1" 7%float
     = Ret (false, 0%float, ("Divide by zero error" ++ LF)%string).
Proof.
  assert (H1 : Z.of_nat (length (tokens "3 * 2 / 0.0000000000000001 + 1"))
               <= INT_MAX) by (vm_compute; discriminate).
  split; [exact H1|].
  split; [vm_compute; reflexivity|]. split; [left; reflexivity|].
  split; [vm_compute; reflexivity|].
  apply (ordered_expression_small_divisor "3 * 2 / 0.0000000000000001 + 1"
           7%float 3%float (atof "0.0000000000000001")
           [2%float] [atof "0.0000000000000001"] [1%float] [] H1).
  - vm_compute. reflexivity.
  - left. reflexivity.
  - vm_compute. reflexivity.
Defined.

(** ** Reading a line *)

Lemma fgets_chars_line (k : nat) (line rest : list ascii) :
  Forall (fun c => c <> newline) line ->
  fgets_chars k (line ++ newline :: rest)
  = if (length line <? k)%nat then (line ++ [newline], rest)
    else (take k line, drop k line ++ newline :: rest).
Proof.
  revert line. induction k as [|k IH]; intros line Hline.
  - by destruct line.
  - destruct Hline as [|c line Hc Hline].
    + cbn [app fgets_chars]. unfold newline. by rewrite Ascii.eqb_refl.
    + cbn [app fgets_chars length]. apply Ascii.eqb_neq in Hc. rewrite Hc.
      rewrite (IH line Hline).
      change (S (length line) <? S k)%nat with (length line <? k)%nat.
      by destruct (length line <? k)%nat.
Qed.

Lemma until_NUL_id (l : list ascii) :
  Forall (fun c => c <> NUL) l -> until_NUL l = l.
Proof.
  induction 1 as [|c l Hc _ IH]; [reflexivity|].
  cbn [until_NUL]. apply Ascii.eqb_neq in Hc. by rewrite Hc, IH.
Qed.

Lemma load_last {A : Type} (l : list A) (x : A) :
  load (l ++ [x]) (Z.of_nat (length (l ++ [x])) - 1) = Ret x.
Proof.
  rewrite length_app. cbn [length].
  replace (Z.of_nat (length l + 1) - 1) with (Z.of_nat (length l)) by lia.
  apply load_lookup. by apply list_lookup_middle.
Qed.

Lemma readline_return_line (line rest : list ascii) :
  readline_return (line ++ [newline]) rest = Ret (Returned (line ++ [NUL]) rest).
Proof.
  unfold readline_return. rewrite load_last. cbn [bind].
  unfold newline at 1 2. by rewrite Ascii.eqb_refl, removelast_last.
Qed.

Lemma fgets_line (n : Z) (line rest : list ascii) :
  2 <= n -> Forall (fun c => c <> newline) line ->
  fgets n (line ++ newline :: rest)
  = Some (if (length line <? Z.to_nat (n - 1))%nat
          then (line ++ [newline], rest)
          else (take (Z.to_nat (n - 1)) line,
                drop (Z.to_nat (n - 1)) line ++ newline :: rest)).
Proof.
  intros Hn Hline. unfold fgets.
  destruct (Z.eqb_spec n 1) as [|_]; [lia|].
  rewrite (fgets_chars_line _ line rest Hline).
  destruct (Nat.ltb_spec (length line) (Z.to_nat (n - 1))) as [Hlt|Hge].
  - by destruct line.
  - destruct (Z.to_nat (n - 1)) as [|k] eqn:Hk; [lia|].
    destruct line as [|c line]; [simpl in Hge; lia|]. reflexivity.
Qed.

(** The loop gathers a line of any length. *)
Lemma readline_loop_line (fuel : nat) (line rest line_data : list ascii)
    (alloc_size : Z) :
  Forall (fun c => c <> newline) line -> Forall (fun c => c <> NUL) line ->
  Z.of_nat (length line_data) + 2 <= alloc_size ->
  (length line < fuel)%nat ->
  readline_loop fuel (line ++ newline :: rest) line_data alloc_size
  = Ret (Returned ((line_data ++ line) ++ [NUL]) rest).
Proof.
  revert line line_data alloc_size.
  induction fuel as [|fuel IH]; intros line acc A Hnl Hnul HA Hfuel; [lia|].
  cbn [readline_loop]. rewrite fgets_line by (lia || assumption).
  set (k := Z.to_nat (A - Z.of_nat (length acc) - 1)).
  assert (Hk : Z.of_nat k = A - Z.of_nat (length acc) - 1) by (unfold k; lia).
  destruct (Nat.ltb_spec (length line) k) as [Hlt|Hge].
  - (* the rest of the line and its newline fit *)
    assert (Hchunk : until_NUL (line ++ [newline]) = line ++ [newline]).
    { apply until_NUL_id, Forall_app. split; [exact Hnul|].
      repeat constructor. discriminate. }
    rewrite Hchunk, app_assoc.
    destruct (Z.of_nat (length ((acc ++ line) ++ [newline])) <? A - 1);
      [apply readline_return_line|].
    rewrite load_last. cbn [bind]. unfold newline at 1 2.
    rewrite Ascii.eqb_refl. apply readline_return_line.
  - (* the buffer is full before the newline *)
    assert (Hlen : length (take k line) = k) by (rewrite length_take; lia).
    assert (Hnul' : Forall (fun c => c <> NUL) (take k line))
      by (by apply Forall_take).
    rewrite (until_NUL_id _ Hnul').
    assert (Hfull : Z.of_nat (length (acc ++ take k line)) = A - 1)
      by (rewrite length_app, Hlen; lia).
    rewrite Hfull, Z.ltb_irrefl.
    assert (Hlast : exists c, take k line !! (k - 1)%nat = Some c /\ c <> newline).
    { destruct (lookup_lt_is_Some_2 (take k line) (k - 1)) as [c Hc]; [lia|].
      exists c. split; [exact Hc|].
      assert (Hnl' : Forall (fun c => c <> newline) (take k line))
        by (by apply Forall_take).
      apply (Forall_lookup_1 _ _ _ _ Hnl' Hc). }
    destruct Hlast as (c & Hc & Hcnl).
    assert (Hload : load (acc ++ take k line) (A - 1 - 1) = Ret c).
    { replace (A - 1 - 1) with (Z.of_nat (length acc + (k - 1))) by lia.
      apply load_lookup. rewrite lookup_app_r by lia.
      replace (length acc + (k - 1) - length acc)%nat with (k - 1)%nat by lia.
      exact Hc. }
    rewrite Hload. cbn [bind]. apply Ascii.eqb_neq in Hcnl. rewrite Hcnl.
    rewrite (IH (drop k line) (acc ++ take k line) (A + 128)).
    + by rewrite <- (app_assoc acc), take_drop.
    + by apply Forall_drop.
    + by apply Forall_drop.
    + lia.
    + rewrite length_drop. lia.
Qed.

(** X8.  [readline] returns the next line of the input, whatever its
    length, without its newline and with a terminator, and leaves the
    input behind the newline to the next call. *)
Theorem readline_returns_line (line rest : list ascii) :
  Forall (fun c => c <> newline) line -> Forall (fun c => c <> NUL) line ->
  readline (line ++ newline :: rest) = Ret (Returned (line ++ [NUL]) rest)
  /\ c_str (line ++ [NUL]) = Ret (string_of_list_ascii line).
Proof.
  intros Hnl Hnul. split.
  - unfold readline. rewrite readline_loop_line; [reflexivity|assumption..| |].
    + simpl. lia.
    + rewrite length_app. simpl. lia.
  - clear Hnl. induction Hnul as [|c line Hc _ IH].
    + cbn [app c_str]. unfold NUL. by rewrite Ascii.eqb_refl.
    + cbn [app c_str string_of_list_ascii]. apply Ascii.eqb_neq in Hc.
      by rewrite Hc, IH.
Qed.

Lemma readline_returns_line_witness :
  Forall (fun c => c <> newline) (list_ascii_of_string "2 + 3 * 4")
  /\ Forall (fun c => c <> NUL) (list_ascii_of_string "2 + 3 * 4")
  /\ readline (list_ascii_of_string "2 + 3 * 4" ++ newline
               :: list_ascii_of_string "quit")
     = Ret (Returned (list_ascii_of_string "2 + 3 * 4" ++ [NUL])
              (list_ascii_of_string "quit"))
  /\ c_str (list_ascii_of_string "2 + 3 * 4" ++ [NUL])
     = Ret (string_of_list_ascii (list_ascii_of_string "2 + 3 * 4")).
Proof.
  assert (H1 : Forall (fun c => c <> newline) (list_ascii_of_string "2 + 3 * 4"))
    by (repeat constructor; discriminate).
  assert (H2 : Forall (fun c => c <> NUL) (list_ascii_of_string "2 + 3 * 4"))
    by (repeat constructor; discriminate).
  split; [exact H1|]. split; [exact H2|].
  apply (readline_returns_line (list_ascii_of_string "2 + 3 * 4")
           (list_ascii_of_string "quit") H1 H2).
Defined.

(** *** Input that ends before a newline *)

Lemma fgets_chars_no_newline (k : nat) (stdin : list ascii) :
  Forall (fun c => c <> newline) stdin ->
  fgets_chars k stdin = (take k stdin, drop k stdin).
Proof.
  intros H. revert k. induction H as [|c stdin Hc _ IH]; intros [|k]; try reflexivity.
  cbn [fgets_chars take drop]. apply Ascii.eqb_neq in Hc. by rewrite Hc, IH.
Qed.

Lemma readline_return_unterminated (line_data stdin : list ascii) (c : ascii) :
  c <> newline ->
  readline_return (line_data ++ [c]) stdin = Ret (Returned (line_data ++ [c]) stdin).
Proof.
  intros Hc. unfold readline_return. rewrite load_last. cbn [bind].
  apply Ascii.eqb_neq in Hc. by rewrite Hc.
Qed.

Lemma c_str_unterminated (buffer : list ascii) :
  Forall (fun c => c <> NUL) buffer -> c_str buffer = OutOfBounds.
Proof.
  induction 1 as [|c buffer Hc _ IH]; [reflexivity|].
  cbn [c_str]. apply Ascii.eqb_neq in Hc. by rewrite Hc, IH.
Qed.

Lemma readline_loop_eof (fuel : nat) (stdin line_data : list ascii)
    (alloc_size : Z) :
  Forall (fun c => c <> newline) stdin -> Forall (fun c => c <> NUL) stdin ->
  Z.of_nat (length line_data) + 2 <= alloc_size ->
  (length stdin < fuel)%nat ->
  readline_loop fuel stdin line_data alloc_size
  = let L := Z.of_nat (length stdin) in
    let k := alloc_size - Z.of_nat (length line_data) - 1 in
    if (L =? 0) || ((k <=? L) && ((L - k) mod 128 =? 0))
    then Ret (Exited ("Error reading from stdin!" ++ LF))
    else Ret (Returned (line_data ++ stdin) []).
Proof.
  revert stdin line_data alloc_size.
  induction fuel as [|fuel IH]; intros stdin acc A Hnl Hnul HA Hfuel; [lia|].
  cbn zeta. cbn [readline_loop]. unfold fgets.
  destruct (Z.eqb_spec (A - Z.of_nat (length acc)) 1) as [|_]; [lia|].
  rewrite (fgets_chars_no_newline _ _ Hnl).
  set (k := Z.to_nat (A - Z.of_nat (length acc) - 1)).
  assert (Hk : A - Z.of_nat (length acc) - 1 = Z.of_nat k) by (unfold k; lia).
  rewrite Hk.
  destruct stdin as [|c0 stdin0] eqn:Estdin.
  { by rewrite take_nil. }
  rewrite <- Estdin in *.
  assert (Hlen0 : (0 < length stdin)%nat) by (rewrite Estdin; simpl; lia).
  destruct k as [|k'] eqn:Ek; [lia|]. rewrite <- Ek in *.
  assert (Htake : take k stdin <> []).
  { rewrite Estdin, Ek. discriminate. }
  destruct (take k stdin) as [|c1 chunk] eqn:Echunk; [done|].
  rewrite <- Echunk in *. clear Htake.
  assert (Hnul' : Forall (fun c => c <> NUL) (take k stdin))
    by (by apply Forall_take).
  assert (Hnl' : Forall (fun c => c <> newline) (take k stdin))
    by (by apply Forall_take).
  rewrite (until_NUL_id _ Hnul').
  destruct (exists_last (l := take k stdin)) as (front & c & Elast);
    [by rewrite Echunk|].
  assert (Hc : c <> newline).
  { rewrite Elast in Hnl'. apply Forall_app in Hnl' as [_ Hnl'].
    by inversion Hnl'. }
  assert (HL : (Z.of_nat (length stdin) =? 0) = false) by (apply Z.eqb_neq; lia).
  rewrite HL. cbn [orb].
  destruct (Z.leb_spec (Z.of_nat k) (Z.of_nat (length stdin))) as [Hge|Hlt];
    cbn [andb].
  - (* the buffer is filled *)
    assert (Hfull : Z.of_nat (length (acc ++ take k stdin)) = A - 1).
    { rewrite length_app, length_take. lia. }
    rewrite Hfull, Z.ltb_irrefl.
    replace (A - 1 - 1) with (Z.of_nat (length (acc ++ take k stdin)) - 1) by lia.
    rewrite Elast, app_assoc, load_last. cbn [bind].
    apply Ascii.eqb_neq in Hc. rewrite Hc.
    rewrite <- app_assoc, <- Elast.
    rewrite (IH (drop k stdin) (acc ++ take k stdin) (A + 128));
      [|by apply Forall_drop|by apply Forall_drop|lia|rewrite length_drop; lia].
    cbn zeta. rewrite <- (app_assoc acc), take_drop.
    rewrite length_drop, length_app, length_take.
    replace (A + 128 - Z.of_nat (length acc + k `min` length stdin) - 1)
      with 128 by lia.
    set (L := Z.of_nat (length stdin)) in *.
    replace (Z.of_nat (length stdin - k)) with (L - Z.of_nat k) by lia.
    assert (Hcond : (L - Z.of_nat k =? 0)
                    || ((128 <=? L - Z.of_nat k)
                        && ((L - Z.of_nat k - 128) mod 128 =? 0))
                    = ((L - Z.of_nat k) mod 128 =? 0)).
    { destruct (Z.eqb_spec (L - Z.of_nat k) 0) as [E0|E0];
        destruct (Z.leb_spec 128 (L - Z.of_nat k));
        destruct (Z.eqb_spec ((L - Z.of_nat k - 128) mod 128) 0);
        destruct (Z.eqb_spec ((L - Z.of_nat k) mod 128) 0);
        cbn [orb andb]; try reflexivity; exfalso;
        Z.div_mod_to_equations; lia. }
    by rewrite Hcond.
  - (* the end of the input comes first *)
    assert (Et : take k stdin = stdin) by (apply take_ge; lia).
    assert (Ed : drop k stdin = []) by (apply drop_ge; lia).
    rewrite Et in *. rewrite Ed.
    assert (Hshort : (Z.of_nat (length (acc ++ stdin)) <? A - 1) = true).
    { apply Z.ltb_lt. rewrite length_app. lia. }
    rewrite Hshort, Elast, app_assoc.
    by apply readline_return_unterminated.
Qed.

(** X9.  On an input that ends before a newline [readline] never returns a
    string.  When nothing is left, or the input fills the buffer exactly
    (127 characters, or 128 more any number of times), it prints
    "Error reading from stdin!" and exits; in every other case it returns
    a buffer that holds the characters read and no terminator, so that
    reading it as a string runs past its end. *)
Theorem readline_without_newline (stdin : list ascii) :
  Forall (fun c => c <> newline) stdin -> Forall (fun c => c <> NUL) stdin ->
  readline stdin
  = (if (Z.of_nat (length stdin) =? 0) || (Z.of_nat (length stdin) mod 128 =? 127)
     then Ret (Exited ("Error reading from stdin!" ++ LF))
     else Ret (Returned stdin []))
  /\ c_str stdin = OutOfBounds.
Proof.
  intros Hnl Hnul. split; [|by apply c_str_unterminated].
  unfold readline. rewrite readline_loop_eof by (assumption || simpl; lia).
  cbn zeta. cbn [length app]. change (128 - Z.of_nat 0 - 1) with 127.
  set (L := Z.of_nat (length stdin)).
  assert (Hcond : (L =? 0) || ((127 <=? L) && ((L - 127) mod 128 =? 0))
                  = (L =? 0) || (L mod 128 =? 127)).
  { assert (0 <= L) by (unfold L; lia).
    destruct (Z.eqb_spec L 0); [reflexivity|]. cbn [orb].
    destruct (Z.leb_spec 127 L);
      destruct (Z.eqb_spec ((L - 127) mod 128) 0);
      destruct (Z.eqb_spec (L mod 128) 127);
      cbn [andb]; try reflexivity; exfalso;
      Z.div_mod_to_equations; lia. }
  by rewrite Hcond.
Qed.

Lemma readline_without_newline_witness :
  Forall (fun c => c <> newline) (list_ascii_of_string "2 + 3")
  /\ Forall (fun c => c <> NUL) (list_ascii_of_string "2 + 3")
  /\ readline (list_ascii_of_string "2 + 3")
     = Ret (Returned (list_ascii_of_string "2 + 3") [])
  /\ c_str (list_ascii_of_string "2 + 3") = OutOfBounds.
Proof.
  assert (H1 : Forall (fun c => c <> newline) (list_ascii_of_string "2 + 3"))
    by (repeat constructor; discriminate).
  assert (H2 : Forall (fun c => c <> NUL) (list_ascii_of_string "2 + 3"))
    by (repeat constructor; discriminate).
  split; [exact H1|]. split; [exact H2|].
  apply (readline_without_newline (list_ascii_of_string "2 + 3") H1 H2).
Defined.

(** ** Printing a result *)

Lemma list_ascii_of_string_app (a b : string) :
  list_ascii_of_string (a ++ b)%string
  = list_ascii_of_string a ++ list_ascii_of_string b.
Proof. induction a as [|c a IH]; [reflexivity|]. simpl. by rewrite IH. Qed.

Lemma string_of_list_ascii_app (a b : list ascii) :
  string_of_list_ascii (a ++ b)
  = (string_of_list_ascii a ++ string_of_list_ascii b)%string.
Proof. induction a as [|c a IH]; [reflexivity|]. simpl. by rewrite IH. Qed.

Lemma length_list_ascii_of_string (s : string) :
  length (list_ascii_of_string s) = String.length s.
Proof. induction s as [|c s IH]; [reflexivity|]. simpl. by rewrite IH. Qed.

Lemma load_middle {A : Type} (front : list A) (x : A) (tail : list A) :
  load (front ++ x :: tail) (Z.of_nat (length front)) = Ret x.
Proof. by apply load_lookup, list_lookup_middle. Qed.

Lemma store_middle {A : Type} (front : list A) (x v : A) (tail : list A) :
  store (front ++ x :: tail) (Z.of_nat (length front)) v
  = Ret (front ++ v :: tail).
Proof.
  rewrite store_insert by (rewrite length_app; simpl; lia).
  f_equal. rewrite insert_app_r_alt by lia. by rewrite Nat.sub_diag.
Qed.

Lemma c_str_app (l tail : list ascii) :
  Forall (fun c => c <> NUL) l ->
  c_str (l ++ NUL :: tail) = Ret (string_of_list_ascii l).
Proof.
  induction 1 as [|c l Hc _ IH].
  - cbn [app c_str]. by rewrite Ascii.eqb_refl.
  - cbn [app c_str string_of_list_ascii]. apply Ascii.eqb_neq in Hc.
    by rewrite Hc, IH.
Qed.

Lemma strchr_NUL_app (t tail : list ascii) (i : Z) :
  Forall (fun c => c <> NUL) t ->
  strchr_NUL (t ++ NUL :: tail) i = Ret (i + Z.of_nat (length t)).
Proof.
  intros H. revert i. induction H as [|c t Hc _ IH]; intros i.
  - cbn [app strchr_NUL length]. rewrite Ascii.eqb_refl. f_equal. lia.
  - cbn [app strchr_NUL]. apply Ascii.eqb_neq in Hc. rewrite Hc, IH.
    f_equal. cbn [length]. lia.
Qed.

(** The loop of lines 353 and 354 stops at the last character that is not
    a zero. *)
Lemma strip_zeros_run (fuel z : nat) (front : list ascii) (c : ascii)
    (tail : list ascii) :
  c <> "0"%char -> (z < fuel)%nat ->
  strip_zeros fuel (front ++ c :: replicate z "0"%char ++ tail)
    (Z.of_nat (length front + z))
  = Ret (front ++ c :: replicate z NUL ++ tail, Z.of_nat (length front)).
Proof.
  intros Hc. revert fuel tail.
  induction z as [|z IH]; intros [|fuel] tail Hfuel; try lia.
  - cbn [strip_zeros replicate app]. rewrite Nat.add_0_r, load_middle.
    cbn [bind]. apply Ascii.eqb_neq in Hc. by rewrite Hc.
  - cbn [strip_zeros].
    rewrite <- (replicate_snoc_app z "0"%char tail).
    rewrite <- (replicate_snoc_app z NUL tail).
    assert (Hsplit : forall x, front ++ c :: replicate z "0"%char ++ x :: tail
                     = (front ++ c :: replicate z "0"%char) ++ x :: tail).
    { intros x. by rewrite <- app_assoc. }
    rewrite (Hsplit "0"%char).
    replace (Z.of_nat (length front + S z))
      with (Z.of_nat (length (front ++ c :: replicate z "0"%char)))
      by (rewrite length_app; cbn [length]; rewrite length_replicate; lia).
    rewrite load_middle. cbn [bind]. rewrite Ascii.eqb_refl.
    rewrite store_middle. cbn [bind].
    replace (Z.of_nat (length (front ++ c :: replicate z "0"%char)) - 1)
      with (Z.of_nat (length front + z))
      by (rewrite length_app; cbn [length]; rewrite length_replicate; lia).
    rewrite <- Hsplit. apply IH. lia.
Qed.

Lemma rev_replicate {A : Type} (n : nat) (x : A) :
  rev (replicate n x) = replicate n x.
Proof.
  induction n as [|n IH]; [reflexivity|].
  cbn [replicate rev]. rewrite IH. symmetry. apply replicate_S_end.
Qed.

Lemma drop_zeros_run (z : nat) (c : ascii) (l : list ascii) :
  c <> "0"%char -> drop_zeros (replicate z "0"%char ++ c :: l) = c :: l.
Proof.
  intros Hc. induction z as [|z IH].
  - cbn [replicate app drop_zeros]. apply Ascii.eqb_neq in Hc. by rewrite Hc.
  - cbn [replicate app drop_zeros]. by rewrite Ascii.eqb_refl.
Qed.

Lemma zeros_off_run (front : list ascii) (c : ascii) (z : nat) :
  c <> "0"%char ->
  zeros_off (front ++ c :: replicate z "0"%char) = front ++ [c].
Proof.
  intros Hc. unfold zeros_off.
  rewrite rev_app_distr. cbn [rev]. rewrite rev_replicate, <- !app_assoc.
  cbn [app]. rewrite drop_zeros_run by exact Hc.
  cbn [rev]. by rewrite rev_involutive.
Qed.

Lemma zeros_off_zeros (z : nat) : zeros_off (replicate z "0"%char) = [].
Proof.
  unfold zeros_off. rewrite rev_replicate.
  induction z as [|z IH]; [reflexivity|].
  cbn [replicate drop_zeros]. by rewrite Ascii.eqb_refl.
Qed.

Lemma point_off_snoc (front : list ascii) (c : ascii) :
  point_off (front ++ [c])
  = if Ascii.eqb c "." || Ascii.eqb c "," then front else front ++ [c].
Proof.
  unfold point_off. rewrite rev_app_distr. cbn [rev app].
  by rewrite rev_involutive.
Qed.

(** A text with a character that is not a zero ends in such a character
    and a run of zeros. *)
Lemma last_nonzero (t : list ascii) :
  Exists (fun c => c <> "0"%char) t ->
  exists front c z, t = front ++ c :: replicate z "0"%char /\ c <> "0"%char.
Proof.
  induction t as [|x t IH] using rev_ind; intros H.
  - inversion H.
  - destruct (Ascii.eqb_spec x "0") as [->|Hx].
    + apply Exists_app in H as [H|H].
      * destruct (IH H) as (front & c & z & -> & Hc).
        exists front, c, (S z). split; [|exact Hc].
        rewrite <- app_assoc. cbn [app]. by rewrite replicate_S_end.
      * inversion H as [? ? Hne|? ? Hne]; [done|inversion Hne].
    + by exists t, x, O.
Qed.

Lemma zero_not_NUL : "0"%char <> NUL.
Proof. discriminate. Qed.

(** The code behind [snprintf], on a text with a character to stop at. *)
Lemma printResult_trimmed (nonfinite : string) (val : float) :
  Forall (fun c => c <> NUL)
    (take 99 (list_ascii_of_string (format_f10 nonfinite val))) ->
  Exists (fun c => c <> "0"%char)
    (take 99 (list_ascii_of_string (format_f10 nonfinite val))) ->
  printResult nonfinite val
  = Ret ("Result: " ++ trimmed (format_f10 nonfinite val) ++ LF)%string.
Proof.
  intros Hnul Hex. unfold printResult, trimmed, snprintf.
  change (100 - 1)%nat with 99%nat.
  destruct (last_nonzero _ Hex) as (front & c & z & Et & Hc).
  rewrite Et in *. clear Et Hex.
  apply Forall_app in Hnul as [Hfront Hnul].
  apply Forall_cons in Hnul as [Hcnul _].
  rewrite zeros_off_run, point_off_snoc by exact Hc.
  cbn zeta.
  rewrite strchr_NUL_app.
  2:{ apply Forall_app. split; [exact Hfront|]. constructor; [exact Hcnul|].
      apply Forall_replicate. exact zero_not_NUL. }
  cbn [bind]. rewrite <- app_assoc. cbn [app].
  replace (0 + Z.of_nat (length (front ++ c :: replicate z "0"%char)) - 1)
    with (Z.of_nat (length front + z))
    by (rewrite length_app; cbn [length]; rewrite length_replicate; lia).
  rewrite strip_zeros_run;
    [|exact Hc|rewrite length_app; cbn [length]; rewrite length_app, length_replicate; lia].
  cbn [bind fst snd]. unfold strip_point. rewrite load_middle. cbn [bind].
  destruct (Ascii.eqb c "." || Ascii.eqb c ",").
  - rewrite store_middle. cbn [bind]. by rewrite c_str_app.
  - rewrite <- replicate_S_end. cbn [replicate bind].
    rewrite (cons_middle c), app_assoc, c_str_app; [done|].
    apply Forall_app. split; [exact Hfront|]. by constructor.
Qed.

(** *** The text of a finite value *)

Lemma isdigit_not (c d : ascii) : isdigit c = true -> isdigit d = false -> c <> d.
Proof. intros Hc Hd ->. congruence. Qed.

Lemma uint_digits (d : Decimal.uint) :
  Forall (fun c => isdigit c = true)
    (list_ascii_of_string (NilEmpty.string_of_uint d)).
Proof.
  induction d; cbn [NilEmpty.string_of_uint list_ascii_of_string];
    constructor; done.
Qed.

Lemma decimal_digits (n : Z) :
  Forall (fun c => isdigit c = true) (list_ascii_of_string (decimal n)).
Proof.
  unfold decimal, NilZero.string_of_uint.
  destruct (N.to_uint (Z.to_N n)) eqn:E; try (rewrite <- E; apply uint_digits).
  repeat constructor.
Qed.

Lemma nzhead_head (d : Decimal.uint) :
  match Decimal.nzhead d with Decimal.D0 _ => False | _ => True end.
Proof. induction d; cbn [Decimal.nzhead]; done. Qed.

(** The integer part is ["0"] or starts with another digit. *)
Lemma decimal_head (n : Z) :
  decimal n = "0"
  \/ exists c s, decimal n = String c s /\ c <> "0"%char.
Proof.
  unfold decimal.
  assert (E : N.to_uint (Z.to_N n) = Decimal.unorm (N.to_uint (Z.to_N n))).
  { rewrite <- DecimalN.Unsigned.to_of, DecimalN.Unsigned.of_to. reflexivity. }
  rewrite E. unfold Decimal.unorm.
  pose proof (nzhead_head (N.to_uint (Z.to_N n))) as H.
  destruct (Decimal.nzhead (N.to_uint (Z.to_N n)));
    [by left|done|right; eexists _, _; split; [reflexivity|discriminate]..].
Qed.

Lemma isdigit_digit_char (d : Z) : 0 <= d < 10 -> isdigit (digit_char d) = true.
Proof.
  intros H.
  assert (E : d = 0 \/ d = 1 \/ d = 2 \/ d = 3 \/ d = 4 \/ d = 5 \/ d = 6
              \/ d = 7 \/ d = 8 \/ d = 9) by lia.
  repeat (destruct E as [->|E]; [reflexivity|]). by subst.
Qed.

Lemma digit_char_zero (d : Z) :
  0 <= d < 10 -> digit_char d = "0"%char <-> d = 0.
Proof.
  intros H.
  assert (E : d = 0 \/ d = 1 \/ d = 2 \/ d = 3 \/ d = 4 \/ d = 5 \/ d = 6
              \/ d = 7 \/ d = 8 \/ d = 9) by lia.
  repeat (destruct E as [->|E]; [split; (done || discriminate)|]).
  subst. split; (done || discriminate).
Qed.

Lemma fixed_digits_digits (k : nat) (n : Z) :
  Forall (fun c => isdigit c = true) (list_ascii_of_string (fixed_digits k n)).
Proof.
  revert n. induction k as [|k IH]; intros n; [constructor|].
  cbn [fixed_digits]. rewrite list_ascii_of_string_app.
  apply Forall_app. split; [apply IH|].
  repeat constructor. apply isdigit_digit_char, Z.mod_pos_bound. lia.
Qed.

Lemma fixed10_chars (s : bool) (n : Z) :
  list_ascii_of_string (fixed10 s n)
  = list_ascii_of_string (minus_sign s)
    ++ list_ascii_of_string (decimal (n / 10 ^ 10))
    ++ "."%char :: list_ascii_of_string (fixed_digits 10 n).
Proof.
  unfold fixed10. by rewrite !list_ascii_of_string_app.
Qed.

Lemma digits_not_NUL (l : list ascii) :
  Forall (fun c => isdigit c = true) l -> Forall (fun c => c <> NUL) l.
Proof.
  intros H. eapply Forall_impl; [exact H|]. intros c Hc ->. discriminate.
Qed.

Lemma fixed10_not_NUL (s : bool) (n : Z) :
  Forall (fun c => c <> NUL) (list_ascii_of_string (fixed10 s n)).
Proof.
  rewrite fixed10_chars. repeat apply Forall_app_2.
  - destruct s; repeat constructor. discriminate.
  - apply digits_not_NUL, decimal_digits.
  - constructor; [discriminate|]. apply digits_not_NUL, fixed_digits_digits.
Qed.

Lemma fixed10_nonzero (s : bool) (n : Z) :
  Exists (fun c => c <> "0"%char) (take 99 (list_ascii_of_string (fixed10 s n))).
Proof.
  rewrite fixed10_chars. destruct s.
  - cbn [minus_sign list_ascii_of_string app].
    apply Exists_cons_hd. discriminate.
  - cbn [minus_sign list_ascii_of_string app].
    destruct (decimal_head (n / 10 ^ 10)) as [->|(c & r & -> & Hc)].
    + cbn [list_ascii_of_string app].
      apply Exists_cons_tl, Exists_cons_hd. discriminate.
    + cbn [list_ascii_of_string app]. by apply Exists_cons_hd.
Qed.

Lemma finite_format (nonfinite : string) (val : float) :
  finite_value val = true ->
  format_f10 nonfinite val = fixed10 (sign_bit val) (decimals val).
Proof.
  unfold finite_value, format_f10, sign_bit, decimals.
  by destruct (Prim2SF val).
Qed.

(** X10.  For every finite value, whatever its size, [printResult] stays
    inside the bytes [snprintf] has written and prints one line: the first
    99 characters of the value written with ten decimals, without the
    zeros at their end and without a point left at the end. *)
Theorem printResult_finite (nonfinite : string) (val : float) :
  finite_value val = true ->
  printResult nonfinite val
  = Ret ("Result: " ++ trimmed (fixed10 (sign_bit val) (decimals val)) ++ LF)%string.
Proof.
  intros Hfin. rewrite <- (finite_format nonfinite val Hfin).
  apply printResult_trimmed; rewrite (finite_format nonfinite val Hfin).
  - apply Forall_take, fixed10_not_NUL.
  - apply fixed10_nonzero.
Qed.

Lemma printResult_finite_witness :
  finite_value 0.5%float = true
  /\ printResult "inf" 0.5%float
     = Ret ("Result: " ++ trimmed (fixed10 (sign_bit 0.5%float) (decimals 0.5%float)) ++ LF)%string.
Proof.
  split; [reflexivity|].
  apply (printResult_finite "inf" 0.5%float). reflexivity.
Defined.

(** *** A value that fits the buffer *)

Lemma fixed_digits_zeros (k : nat) (n : Z) :
  (n mod 10 ^ Z.of_nat k = 0 ->
   list_ascii_of_string (fixed_digits k n) = replicate k "0"%char)
  /\ (n mod 10 ^ Z.of_nat k <> 0 ->
      Exists (fun c => c <> "0"%char) (list_ascii_of_string (fixed_digits k n))).
Proof.
  revert n. induction k as [|k IH]; intros n.
  - split; [reflexivity|]. intros H. exfalso. apply H.
    change (10 ^ Z.of_nat 0) with 1. apply Z.mod_1_r.
  - assert (Hpow : 0 < 10 ^ Z.of_nat k) by (apply Z.pow_pos_nonneg; lia).
    assert (Hsplit : n mod 10 ^ Z.of_nat (S k)
                     = n mod 10 + 10 * ((n / 10) mod 10 ^ Z.of_nat k)).
    { rewrite Nat2Z.inj_succ, Z.pow_succ_r by lia.
      apply Z.rem_mul_r; lia. }
    pose proof (Z.mod_pos_bound n 10 eq_refl) as Hd.
    pose proof (Z.mod_pos_bound (n / 10) _ Hpow) as Hr.
    destruct (IH (n / 10)) as [IH0 IH1].
    cbn [fixed_digits]. rewrite list_ascii_of_string_app.
    cbn [list_ascii_of_string]. split; intros H.
    + rewrite IH0 by lia.
      replace (n mod 10) with 0 by lia. symmetry. apply replicate_S_end.
    + apply Exists_app.
      destruct (Z.eq_dec ((n / 10) mod 10 ^ Z.of_nat k) 0) as [E|E].
      * right. apply Exists_cons_hd. rewrite digit_char_zero by exact Hd. lia.
      * left. by apply IH1.
Qed.

Lemma isdigit_not_point (c : ascii) :
  isdigit c = true -> Ascii.eqb c "." || Ascii.eqb c "," = false.
Proof.
  intros H.
  destruct (Ascii.eqb_spec c ".") as [->|_]; [discriminate H|].
  destruct (Ascii.eqb_spec c ",") as [->|_]; [discriminate H|]. reflexivity.
Qed.

(** The digits behind the point lose their zeros, and the point goes when
    no digit is left. *)
Lemma trimmed_fixed10 (s : bool) (n : Z) :
  (String.length (fixed10 s n) <= 99)%nat ->
  trimmed (fixed10 s n)
  = (minus_sign s ++ decimal (n / 10 ^ 10) ++ fraction n)%string.
Proof.
  intros Hlen. unfold trimmed.
  rewrite take_ge by (by rewrite length_list_ascii_of_string).
  rewrite fixed10_chars, app_assoc.
  set (a := list_ascii_of_string (minus_sign s)
            ++ list_ascii_of_string (decimal (n / 10 ^ 10))).
  assert (Ha : string_of_list_ascii a
               = (minus_sign s ++ decimal (n / 10 ^ 10))%string).
  { unfold a. by rewrite string_of_list_ascii_app, !string_of_list_ascii_of_string. }
  destruct (fixed_digits_zeros 10 n) as [H0 H1].
  change (10 ^ Z.of_nat 10) with (10 ^ 10) in H0, H1.
  unfold fraction. destruct (Z.eqb_spec (n mod 10 ^ 10) 0) as [E|E].
  - rewrite (H0 E), zeros_off_run by discriminate.
    rewrite point_off_snoc. cbn [orb]. rewrite Ascii.eqb_refl. cbn [orb].
    rewrite Ha. by rewrite append_empty.
  - destruct (last_nonzero _ (H1 E)) as (f & c & z & Ef & Hc).
    assert (Hdigit : isdigit c = true).
    { pose proof (fixed_digits_digits 10 n) as Hall. rewrite Ef in Hall.
      apply Forall_app in Hall as [_ Hall]. by apply Forall_cons in Hall as [? _]. }
    rewrite Ef, zeros_off_run by exact Hc.
    rewrite (cons_middle "."%char), !app_assoc, zeros_off_run by exact Hc.
    rewrite point_off_snoc, (isdigit_not_point c Hdigit).
    rewrite <- !app_assoc, string_of_list_ascii_app, Ha, append_assoc.
    reflexivity.
Qed.

(** X11.  A finite value whose text with ten decimals fits the 99
    characters of the buffer is printed as its sign, its integer part and
    its decimals without the zeros at their end; the point is printed only
    when a decimal is left, so an integer is printed without one. *)
Theorem printResult_short (nonfinite : string) (val : float) :
  finite_value val = true ->
  (String.length (fixed10 (sign_bit val) (decimals val)) <= 99)%nat ->
  printResult nonfinite val
  = Ret ("Result: "
         ++ (minus_sign (sign_bit val) ++ decimal (decimals val / 10 ^ 10)
             ++ fraction (decimals val))
         ++ LF)%string.
Proof.
  intros Hfin Hlen. rewrite <- (trimmed_fixed10 _ _ Hlen).
  rewrite <- (finite_format nonfinite val Hfin).
  apply printResult_trimmed; rewrite (finite_format nonfinite val Hfin).
  - apply Forall_take, fixed10_not_NUL.
  - apply fixed10_nonzero.
Qed.

Lemma printResult_short_witness :
  finite_value 2.5%float = true
  /\ (String.length (fixed10 (sign_bit 2.5%float) (decimals 2.5%float)) <= 99)%nat
  /\ printResult "inf" 2.5%float
     = Ret ("Result: "
            ++ (minus_sign (sign_bit 2.5%float)
                ++ decimal (decimals 2.5%float / 10 ^ 10)
                ++ fraction (decimals 2.5%float))
            ++ LF)%string.
Proof.
  assert (H1 : finite_value 2.5%float = true) by reflexivity.
  assert (H2 : (String.length (fixed10 (sign_bit 2.5%float) (decimals 2.5%float))
                <= 99)%nat) by (vm_compute; lia).
  split; [exact H1|]. split; [exact H2|].
  apply (printResult_short "inf" 2.5%float H1 H2).
Defined.

(** *** A printed result as an operand *)

Lemma drop_zeros_suffix (l : list ascii) : exists z, l = z ++ drop_zeros l.
Proof.
  induction l as [|c l [z IH]]; [by exists []|].
  cbn [drop_zeros]. destruct (Ascii.eqb c "0").
  - exists (c :: z). cbn [app]. by rewrite <- IH.
  - by exists [].
Qed.

Lemma zeros_off_prefix (t : list ascii) : exists r, t = zeros_off t ++ r.
Proof.
  unfold zeros_off. destruct (drop_zeros_suffix (rev t)) as [z E].
  exists (rev z). rewrite <- rev_app_distr, <- E. by rewrite rev_involutive.
Qed.

Lemma point_off_prefix (l : list ascii) : exists r, l = point_off l ++ r.
Proof.
  destruct l as [|x l] using rev_ind; [by exists []|].
  rewrite point_off_snoc. destruct (Ascii.eqb x "." || Ascii.eqb x ",").
  - by exists [x].
  - exists []. by rewrite app_nil_r.
Qed.

Lemma trimmed_prefix (text : string) :
  exists r, list_ascii_of_string text
            = list_ascii_of_string (trimmed text) ++ r
            /\ (String.length (trimmed text) <= 99)%nat.
Proof.
  unfold trimmed. rewrite <- length_list_ascii_of_string.
  rewrite list_ascii_of_string_of_list_ascii.
  destruct (point_off_prefix (zeros_off (take 99 (list_ascii_of_string text))))
    as [r1 E1].
  destruct (zeros_off_prefix (take 99 (list_ascii_of_string text))) as [r2 E2].
  exists (r1 ++ r2 ++ drop 99 (list_ascii_of_string text)). split.
  - rewrite !app_assoc, <- E1, <- E2. by rewrite take_drop.
  - apply (f_equal length) in E2. rewrite E1 in E2.
    rewrite length_take, !length_app in E2. lia.
Qed.

Lemma string_forall_chars (p : ascii -> bool) (s : string) :
  string_forall p s = true <-> Forall (fun c => p c = true) (list_ascii_of_string s).
Proof.
  induction s as [|c s IH]; cbn [string_forall list_ascii_of_string].
  - split; [constructor|done].
  - rewrite andb_true_iff, Forall_cons, IH. reflexivity.
Qed.

Lemma count_char_chars (c : ascii) (a b : list ascii) :
  count_char c (string_of_list_ascii (a ++ b))
  = (count_char c (string_of_list_ascii a)
     + count_char c (string_of_list_ascii b))%nat.
Proof.
  induction a as [|x a IH]; [reflexivity|].
  cbn [app string_of_list_ascii count_char]. rewrite IH. lia.
Qed.

Lemma count_point_digits (l : list ascii) :
  Forall (fun c => isdigit c = true) l ->
  count_char "." (string_of_list_ascii l) = O.
Proof.
  induction 1 as [|c l Hc _ IH]; [reflexivity|].
  cbn [string_of_list_ascii count_char]. rewrite IH.
  destruct (Ascii.eqb_spec c ".") as [->|_]; [discriminate Hc|reflexivity].
Qed.

Lemma digits_digit_or_dot (l : list ascii) :
  Forall (fun c => isdigit c = true) l ->
  Forall (fun c => digit_or_dot c = true) l.
Proof.
  intros H. eapply Forall_impl; [exact H|].
  intros c Hc. unfold digit_or_dot. by rewrite Hc.
Qed.

(** A text that starts with a sign keeps it. *)
Lemma trimmed_sign (l : list ascii) :
  exists l', point_off (zeros_off ("-"%char :: l)) = "-"%char :: l'.
Proof.
  destruct (last_nonzero ("-"%char :: l)) as (front & c & z & E & Hc).
  { apply Exists_cons_hd. discriminate. }
  rewrite E, zeros_off_run, point_off_snoc by exact Hc.
  destruct front as [|x front].
  - injection E as <- _. cbn [orb]. by exists [].
  - injection E as <- _. destruct (Ascii.eqb c "." || Ascii.eqb c ",").
    + by exists front.
    + by exists (front ++ [c]).
Qed.

Lemma trimmed_fixed10_operand (s : bool) (n : Z) :
  validOperand (trimmed (fixed10 s n)) = negb s.
Proof.
  destruct s; cbn [negb].
  - unfold trimmed. rewrite fixed10_chars.
    cbn [minus_sign list_ascii_of_string app].
    change (take 99 ("-"%char :: ?l)) with ("-"%char :: take 98 l).
    destruct (trimmed_sign
                (take 98 (list_ascii_of_string (decimal (n / 10 ^ 10))
                          ++ "."%char :: list_ascii_of_string (fixed_digits 10 n))))
      as [l' ->].
    reflexivity.
  - destruct (trimmed_prefix (fixed10 false n)) as [r [E _]].
    rewrite fixed10_chars in E. cbn [minus_sign list_ascii_of_string app] in E.
    assert (Hall : Forall (fun c => digit_or_dot c = true)
                     (list_ascii_of_string (trimmed (fixed10 false n)) ++ r)).
    { rewrite <- E. apply Forall_app. split.
      - apply digits_digit_or_dot, decimal_digits.
      - constructor; [reflexivity|].
        apply digits_digit_or_dot, fixed_digits_digits. }
    apply Forall_app in Hall as [Hall _].
    assert (Hcount : (count_char "." (trimmed (fixed10 false n)) <= 1)%nat).
    { apply (f_equal (fun l => count_char "." (string_of_list_ascii l))) in E.
      rewrite !count_char_chars in E.
      cbn [string_of_list_ascii count_char] in E.
      rewrite !count_point_digits in E
        by (apply decimal_digits || apply fixed_digits_digits).
      rewrite string_of_list_ascii_of_string in E.
      rewrite Ascii.eqb_refl in E. lia. }
    unfold validOperand.
    rewrite validOperand_loop_spec by (split; [lia|reflexivity]).
    apply string_forall_chars in Hall. rewrite Hall. cbn [andb].
    rewrite Z.add_0_l, Z.mod_small; [apply Z.leb_le; lia|].
    split; [lia|]. apply Z.le_lt_trans with 1; [lia|reflexivity].
Qed.

(** X12.  The number [printResult] prints for a finite value is accepted
    by [validOperand] exactly when the sign bit of the value is clear: a
    result that is not negative can be typed in again as an operand, a
    negative result, or a negative zero, cannot. *)
Theorem printed_result_as_operand (nonfinite : string) (val : float) :
  finite_value val = true ->
  exists text,
    printResult nonfinite val = Ret ("Result: " ++ text ++ LF)%string
    /\ validOperand text = negb (sign_bit val).
Proof.
  intros Hfin. exists (trimmed (fixed10 (sign_bit val) (decimals val))).
  split; [|apply trimmed_fixed10_operand].
  rewrite <- (finite_format nonfinite val Hfin).
  apply printResult_trimmed; rewrite (finite_format nonfinite val Hfin).
  - apply Forall_take, fixed10_not_NUL.
  - apply fixed10_nonzero.
Qed.

Lemma printed_result_as_operand_witness :
  finite_value 14%float = true
  /\ exists text,
       printResult "inf" 14%float = Ret ("Result: " ++ text ++ LF)%string
       /\ validOperand text = negb (sign_bit 14%float).
Proof.
  split; [reflexivity|].
  apply (printed_result_as_operand "inf" 14%float). reflexivity.
Defined.

(** *** A value that does not fit the buffer *)

(** X13.  When the sign and the integer part of a finite value take more
    than 99 characters (a positive value of [1e99] or more), [printResult]
    prints at most the first 99 of them and drops the others: the number
    on the line has fewer digits than the value. *)
Theorem printResult_drops_digits (nonfinite : string) (val : float) :
  finite_value val = true ->
  (99 < String.length (minus_sign (sign_bit val)
                       ++ decimal (decimals val / 10 ^ 10)))%nat ->
  exists text rest,
    printResult nonfinite val = Ret ("Result: " ++ text ++ LF)%string
    /\ (minus_sign (sign_bit val) ++ decimal (decimals val / 10 ^ 10)
        = text ++ rest)%string
    /\ rest <> EmptyString.
Proof.
  intros Hfin Hlong.
  set (s := sign_bit val) in *. set (n := decimals val) in *.
  destruct (trimmed_prefix (fixed10 s n)) as (r & E & Hlen).
  set (whole := list_ascii_of_string (minus_sign s ++ decimal (n / 10 ^ 10))).
  assert (Hwhole : list_ascii_of_string (fixed10 s n)
                   = whole ++ "."%char :: list_ascii_of_string (fixed_digits 10 n)).
  { unfold whole. by rewrite fixed10_chars, list_ascii_of_string_app, <- app_assoc. }
  assert (Hw : (99 < length whole)%nat)
    by (unfold whole; by rewrite length_list_ascii_of_string).
  rewrite <- length_list_ascii_of_string in Hlen.
  set (t := list_ascii_of_string (trimmed (fixed10 s n))) in *.
  assert (Ht : t = take (length t) whole).
  { rewrite <- (take_app_le whole ("."%char :: list_ascii_of_string (fixed_digits 10 n)))
      by lia.
    by rewrite <- Hwhole, E, take_app_length. }
  exists (trimmed (fixed10 s n)), (string_of_list_ascii (drop (length t) whole)).
  split; [|split].
  - unfold s, n. rewrite <- (finite_format nonfinite val Hfin).
    apply printResult_trimmed; rewrite (finite_format nonfinite val Hfin).
    + apply Forall_take, fixed10_not_NUL.
    + apply fixed10_nonzero.
  - rewrite <- (string_of_list_ascii_of_string (trimmed (fixed10 s n))).
    fold t. rewrite Ht at 1.
    rewrite <- string_of_list_ascii_app, take_drop.
    unfold whole. by rewrite string_of_list_ascii_of_string.
  - intros Hnil. apply (f_equal String.length) in Hnil.
    rewrite <- length_list_ascii_of_string in Hnil.
    rewrite list_ascii_of_string_of_list_ascii, length_drop in Hnil.
    simpl in Hnil. lia.
Qed.

Lemma printResult_drops_digits_witness :
  finite_value 0x1p+400%float = true
  /\ (99 < String.length (minus_sign (sign_bit 0x1p+400%float)
                          ++ decimal (decimals 0x1p+400%float / 10 ^ 10)))%nat
  /\ exists text rest,
       printResult "inf" 0x1p+400%float = Ret ("Result: " ++ text ++ LF)%string
       /\ (minus_sign (sign_bit 0x1p+400%float)
           ++ decimal (decimals 0x1p+400%float / 10 ^ 10)
           = text ++ rest)%string
       /\ rest <> EmptyString.
Proof.
  assert (H1 : finite_value 0x1p+400%float = true) by reflexivity.
  assert (H2 : (99 < String.length (minus_sign (sign_bit 0x1p+400%float)
                                    ++ decimal (decimals 0x1p+400%float / 10 ^ 10)))%nat)
    by (vm_compute; lia).
  split; [exact H1|]. split; [exact H2|].
  apply (printResult_drops_digits "inf" 0x1p+400%float H1 H2).
Defined.

(** *** An infinity or a NaN *)

(** X14.  For an infinity or a NaN [printResult] prints the text of the
    library as it is, when that text fits the buffer and ends in a
    character other than ['0'], ['.'] and [','], as [inf], [infinity] and
    [nan] do. *)
Theorem printResult_nonfinite (front : list ascii) (c : ascii) (val : float) :
  finite_value val = false ->
  Forall (fun c => c <> NUL) (front ++ [c]) -> (length front < 99)%nat ->
  c <> "0"%char -> c <> "."%char -> c <> ","%char ->
  printResult (string_of_list_ascii (front ++ [c])) val
  = Ret ("Result: " ++ string_of_list_ascii (front ++ [c]) ++ LF)%string.
Proof.
  intros Hfin Hnul Hlen H0 Hp Hc.
  assert (Htext : format_f10 (string_of_list_ascii (front ++ [c])) val
                  = string_of_list_ascii (front ++ [c])).
  { unfold finite_value in Hfin. unfold format_f10.
    by destruct (Prim2SF val). }
  assert (Htake : take 99 (list_ascii_of_string
                             (format_f10 (string_of_list_ascii (front ++ [c])) val))
                  = front ++ [c]).
  { rewrite Htext, list_ascii_of_string_of_list_ascii.
    apply take_ge. rewrite length_app. simpl. lia. }
  rewrite printResult_trimmed.
  - unfold trimmed. rewrite Htake.
    pose proof (zeros_off_run front c 0 H0) as Hz. cbn [replicate] in Hz.
    rewrite Hz, point_off_snoc.
    apply Ascii.eqb_neq in Hp, Hc. by rewrite Hp, Hc.
  - by rewrite Htake.
  - rewrite Htake. apply Exists_app. right. by apply Exists_cons_hd.
Qed.

Lemma printResult_nonfinite_witness :
  finite_value infinity = false
  /\ Forall (fun c => c <> NUL) (["i"; "n"]%char ++ ["f"%char])
  /\ (length ["i"; "n"]%char < 99)%nat
  /\ "f"%char <> "0"%char /\ "f"%char <> "."%char /\ "f"%char <> ","%char
  /\ printResult (string_of_list_ascii (["i"; "n"]%char ++ ["f"%char])) infinity
     = Ret ("Result: " ++ string_of_list_ascii (["i"; "n"]%char ++ ["f"%char])
            ++ LF)%string.
Proof.
  assert (H1 : finite_value infinity = false) by reflexivity.
  assert (H2 : Forall (fun c => c <> NUL) (["i"; "n"]%char ++ ["f"%char]))
    by (repeat constructor; discriminate).
  assert (H3 : (length ["i"; "n"]%char < 99)%nat) by (simpl; lia).
  assert (H4 : "f"%char <> "0"%char) by discriminate.
  assert (H5 : "f"%char <> "."%char) by discriminate.
  assert (H6 : "f"%char <> ","%char) by discriminate.
  repeat (split; [assumption|]).
  apply (printResult_nonfinite ["i"; "n"]%char "f"%char infinity H1 H2 H3 H4 H5 H6).
Defined.

(** ** The session *)








